(** * puppeteer-renderer: the rendering facade of [lib/renderer.ts]

    A shallow embedding of [packages/puppeteer-renderer/src/lib/renderer.ts].
    The file holds two revisions of the module: the first one (class
    [Renderer] with [chromeTmpDataDir], a [createPage] that cleans up after
    itself) is embedded in [Module V1], the second one (with [withPage]) in
    [Module V2].

    The browser engine (puppeteer), [JSON.parse], the animation settler of
    [./wait-for-animations] and [fs-extra] lie outside the file.  They are
    taken as an [Engine]: a deterministic environment that answers every call
    from the history of calls made so far.  Asynchronous functions are
    computations in a state-and-exception monad over the [World] that the
    engine and the JavaScript heap make up; [await] is sequencing. *)

From stdpp Require Import gmap strings list sorting.
From Stdlib.Strings Require Import Ascii Byte.

Open Scope string_scope.
Open Scope list_scope.

(** ** Data model *)

(** Modelled from the spec: the option types of [./validate-schema] are not
    part of the source.  Section 6 of the specification lists
    [emulateMediaType] as [screen|print]. *)
Inductive mediaType := screen | print.

Record Credentials := { username : string; password : string }.

(** Modelled from the spec: [PageOptions] of [./validate-schema]; the
    navigation options are the wait-until condition and the timeout, the
    headers are a string that is expected to hold JSON. *)
Record PageOptions := {
  timeout : option Z;
  waitUntil : option string;
  credentials : option Credentials;
  emulateMediaType : option mediaType;
  headers : option string;
}.

(** Modelled from the spec: [PdfOptions], a bag of layout settings that the
    facade hands to the engine untouched. *)
Definition PdfOptions := list (string * string).

(** Modelled from the spec: [PageViewportOptions], the viewport dimensions. *)
Record PageViewportOptions := { width : Z; height : Z }.

(** Modelled from the spec: [ScreenshotOptions]; [type] is the image format,
    [quality] may be absent, [animationTimeout] is a number of milliseconds
    and [shot_rest] stands for the remaining engine settings. *)
Record ScreenshotOptions := {
  animationTimeout : Z;
  type : string;
  quality : option Z;
  shot_rest : list (string * string);
}.

(** The object literal handed to [page.screenshot]. *)
Record CaptureOptions := {
  cap_type : string;
  cap_quality : option Z;
  cap_rest : list (string * string);
}.

(** A parsed JSON value.  Numbers keep their literal and strings their
    escaped text. *)
#[warnings="-register-all"]
Inductive json :=
| JNull
| JBool (b : bool)
| JNumber (literal : string)
| JString (text : string)
| JArray (items : list json)
| JObject (members : list (string * json)).

Definition Buffer := list byte.

(** A page handle: the index of the page among those the browser opened. *)
Abbreviation Page := nat (only parsing).

Inductive pageState := PageOpen | PageClosed.

#[global]
Instance pageState_eq_dec : EqDecision pageState.
Proof. solve_decision. Defined.

(** What a JavaScript [throw] carries here: the [SyntaxError] of
    [JSON.parse], a rejection by the engine, or a [TypeError] on a reference
    that points nowhere. *)
Inductive error :=
| SyntaxError (text : string)
| EngineError (message : string)
| TypeError (message : string).

(** ** Calls into the engine *)

Inductive pageOp :=
| On (eventName : string)
| SetExtraHTTPHeaders (h : json)
| EmulateMediaType (m : mediaType)
| Authenticate (c : Credentials)
| SetCacheEnabled (enabled : bool)
| Goto (url : string) (options : PageOptions)
| Content
| Pdf (options : PdfOptions)
| SetViewport (v : PageViewportOptions)
| WaitForAnimations (options : ScreenshotOptions) (timeoutMs : Z)
| Screenshot (options : CaptureOptions)
| Close.

Inductive call :=
| Launch (args : list string) (headless : string)
| NewPage
| PageCall (p : Page) (op : pageOp)
| BrowserClose
| RemoveSync (path : string).

(** A call that has returned, and whether it returned normally. *)
Record event := Ev { ev_call : call; ev_ok : bool }.

(** The engine's answer to a call: a rejection message if it fails, and
    whether the page's target is gone once the call has returned (a page can
    be closed by its own script or by a crash, which is what
    [page.isClosed()] observes). *)
Record reply := { failure : option string; target_gone : bool }.

Record Engine := {
  JSON_parse : string -> option json;
  respond : list event -> call -> reply;
  content_of : list event -> Page -> string;
  pdf_of : list event -> Page -> PdfOptions -> Buffer;
  screenshot_of : list event -> Page -> CaptureOptions -> Buffer;
  spawnargs : list event -> option (list string);
}.

(** ** The JavaScript heap of [create]

    [create] receives its options object by reference and the [args] array
    is an object of its own. *)
Abbreviation loc := nat (only parsing).

Record LaunchOptions := {
  args : option loc;
  headless : option string;
}.

Record Heap := {
  objects : gmap loc LaunchOptions;
  arrays : gmap loc (list string);
}.

Inductive logLine :=
| LogError (e : error)
| LogCloseFailed (e : error)
| LogInitialized (options : loc).

Record World := {
  trace : list event;
  pages : list pageState;
  console : list logLine;
  browserRunning : bool;
  files : gset string;
  heap : Heap;
}.

Definition set_trace (f : list event -> list event) (w : World) : World :=
  {| trace := f (trace w); pages := pages w; console := console w;
     browserRunning := browserRunning w; files := files w; heap := heap w |}.

Definition set_pages (f : list pageState -> list pageState) (w : World) : World :=
  {| trace := trace w; pages := f (pages w); console := console w;
     browserRunning := browserRunning w; files := files w; heap := heap w |}.

Definition set_console (f : list logLine -> list logLine) (w : World) : World :=
  {| trace := trace w; pages := pages w; console := f (console w);
     browserRunning := browserRunning w; files := files w; heap := heap w |}.

Definition set_browserRunning (b : bool) (w : World) : World :=
  {| trace := trace w; pages := pages w; console := console w;
     browserRunning := b; files := files w; heap := heap w |}.

Definition set_files (f : gset string -> gset string) (w : World) : World :=
  {| trace := trace w; pages := pages w; console := console w;
     browserRunning := browserRunning w; files := f (files w); heap := heap w |}.

Definition set_heap (f : Heap -> Heap) (w : World) : World :=
  {| trace := trace w; pages := pages w; console := console w;
     browserRunning := browserRunning w; files := files w; heap := f (heap w) |}.

(** ** The monad of asynchronous functions *)

Inductive result (A : Type) :=
| Ok (a : A)
| Err (e : error).
Arguments Ok {A} a.
Arguments Err {A} e.

Definition M (A : Type) : Type := World -> result A * World.

Definition ret {A} (a : A) : M A := fun w => (Ok a, w).

Definition throw {A} (e : error) : M A := fun w => (Err e, w).

Definition bind {A B} (m : M A) (k : A -> M B) : M B := fun w =>
  match m w with
  | (Ok a, w1) => k a w1
  | (Err e, w1) => (Err e, w1)
  end.

Declare Scope js_scope.
Delimit Scope js_scope with js.
Notation "x <- m ;; k" := (bind m (fun x => k))
  (at level 100, m at next level, right associativity) : js_scope.
Notation "m ;; k" := (bind m (fun _ => k))
  (at level 100, right associativity) : js_scope.
Open Scope js_scope.

(** [if (c) { await m }] *)
Definition when (c : bool) (m : M unit) : M unit := if c then m else ret tt.

(** [try { body } finally { fin }]: the finaliser runs on both exits, and an
    exception of the finaliser replaces the outcome of the body. *)
Definition try_finally {A} (body : M A) (fin : M unit) : M A := fun w =>
  let '(r, w1) := body w in
  match fin w1 with
  | (Ok _, w2) => (r, w2)
  | (Err e, w2) => (Err e, w2)
  end.

(** [try { body } catch (e) { handler e }] *)
Definition try_catch {A} (body : M A) (handler : error -> M A) : M A := fun w =>
  match body w with
  | (Ok a, w1) => (Ok a, w1)
  | (Err e, w1) => handler e w1
  end.

(** [let x; try { x = await acquire; rest x } finally { fin x }]: the
    finaliser sees [x] undefined when [acquire] did not return. *)
Definition let_try_finally {A B} (acquire : M A) (rest : A -> M B)
    (fin : option A -> M unit) : M B := fun w =>
  match acquire w with
  | (Ok x, w1) => try_finally (rest x) (fin (Some x)) w1
  | (Err e, w1) => try_finally (throw e) (fin None) w1
  end.

(** [let x; try { x = await acquire; rest x } catch (e) { handler x e }] *)
Definition let_try_catch {A B} (acquire : M A) (rest : A -> M B)
    (handler : option A -> error -> M B) : M B := fun w =>
  match acquire w with
  | (Ok x, w1) => try_catch (rest x) (handler (Some x)) w1
  | (Err e, w1) => handler None e w1
  end.

(** ** Primitive operations *)

(** JavaScript truthiness of a string: every string but the empty one. *)
Definition truthy (s : string) : bool := negb (String.eqb s "").

Definition mark_closed (p : Page) (ps : list pageState) : list pageState :=
  <[p := PageClosed]> ps.

(** [page.isClosed()] *)
Definition isClosed (p : Page) (w : World) : bool :=
  match pages w !! p with
  | Some PageOpen => false
  | _ => true
  end.

Definition answered (c : call) (r : reply) : event :=
  Ev c (bool_decide (failure r = None)).

Definition outcome (r : reply) : result unit :=
  match failure r with
  | None => Ok tt
  | Some msg => Err (EngineError msg)
  end.

(** [await browser.newPage()] *)
Definition newPage (E : Engine) : M Page := fun w =>
  let r := respond E (trace w) NewPage in
  let w1 := set_trace (fun t => t ++ [answered NewPage r]) w in
  match failure r with
  | None =>
      (Ok (length (pages w)),
       set_pages (fun ps => ps ++ [if target_gone r then PageClosed else PageOpen]) w1)
  | Some msg => (Err (EngineError msg), w1)
  end.

(** The page is closed after a call when its target went away during the
    call, or when the call was a [close] that returned. *)
Definition closes (op : pageOp) (r : reply) : bool :=
  target_gone r ||
  match op with
  | Close => bool_decide (failure r = None)
  | _ => false
  end.

(** [await page.op(...)] for the operations that return nothing. *)
Definition pageCall (E : Engine) (p : Page) (op : pageOp) : M unit := fun w =>
  let r := respond E (trace w) (PageCall p op) in
  let w1 := set_trace (fun t => t ++ [answered (PageCall p op) r]) w in
  (outcome r, if closes op r then set_pages (mark_closed p) w1 else w1).

(** [page.on(eventName, listener)]: the listener is registered at once, no
    request goes to the engine and nothing is awaited. *)
Definition pageOn (p : Page) (eventName : string) : M unit := fun w =>
  (Ok tt, set_trace (fun t => t ++ [Ev (PageCall p (On eventName)) true]) w).

(** [await page.content()] *)
Definition content (E : Engine) (p : Page) : M string := fun w =>
  (pageCall E p Content ;; ret (content_of E (trace w) p)) w.

(** [await page.pdf(options)] *)
Definition pdfBytes (E : Engine) (p : Page) (o : PdfOptions) : M Buffer := fun w =>
  (pageCall E p (Pdf o) ;; ret (pdf_of E (trace w) p o)) w.

(** [await page.screenshot(options)] *)
Definition screenshotBytes (E : Engine) (p : Page) (o : CaptureOptions) : M Buffer :=
  fun w => (pageCall E p (Screenshot o) ;; ret (screenshot_of E (trace w) p o)) w.

(** [JSON.parse(text)] *)
Definition parseJSON (E : Engine) (text : string) : M json :=
  match JSON_parse E text with
  | Some j => ret j
  | None => throw (SyntaxError text)
  end.

(** [console.error(e)], [console.error('Failed to close page:', e)] and
    [console.info('Initialized renderer.', options)] *)
Definition console_log (l : logLine) : M unit := fun w =>
  (Ok tt, set_console (fun c => c ++ [l]) w).

(** [page.isClosed()] as a step of a computation. *)
Definition page_isClosed (p : Page) : M bool := fun w => (Ok (isClosed p w), w).

(** A call that does not concern one page; [effect] is what it does to the
    world when it returns normally. *)
Definition engineCall (E : Engine) (c : call) (effect : World -> World) : M unit :=
  fun w =>
    let r := respond E (trace w) c in
    let w1 := set_trace (fun t => t ++ [answered c r]) w in
    (outcome r, if bool_decide (failure r = None) then effect w1 else w1).

(** [await browser.close()] *)
Definition browserClose (E : Engine) : M unit :=
  engineCall E BrowserClose (set_browserRunning false).

(** [path] lies below the directory [dir]. *)
Definition below (dir path : string) : bool := String.prefix (dir +:+ "/") path.

(** What [fs-extra]'s [removeSync] leaves of the file system: [dir] and all
    that lies below it are gone. *)
Definition remove_tree (dir : string) (fs : gset string) : gset string :=
  filter (fun path => path <> dir /\ below dir path = false) fs.

(** [fs.removeSync(dir)] *)
Definition removeSync (E : Engine) (dir : string) : M unit :=
  engineCall E (RemoveSync dir) (set_files (remove_tree dir)).

(** [fs.existsSync(path)]: no file has the empty path. *)
Definition existsSync (w : World) (path : string) : bool :=
  negb (String.eqb path "") && bool_decide (path ∈ files w).

(** *** Heap access *)

Definition dangling {A} : M A := throw (TypeError "Cannot read properties of undefined").

Definition new_object (o : LaunchOptions) : M loc := fun w =>
  let l := fresh (dom (objects (heap w))) in
  (Ok l, set_heap (fun h => {| objects := <[l := o]> (objects h); arrays := arrays h |}) w).

Definition new_array (xs : list string) : M loc := fun w =>
  let l := fresh (dom (arrays (heap w))) in
  (Ok l, set_heap (fun h => {| objects := objects h; arrays := <[l := xs]> (arrays h) |}) w).

(** [options.args] *)
Definition get_args (options : loc) : M (option loc) := fun w =>
  match objects (heap w) !! options with
  | Some o => (Ok (args o), w)
  | None => dangling w
  end.

(** [options.args = a] *)
Definition set_args (options : loc) (a : loc) : M unit := fun w =>
  match objects (heap w) !! options with
  | Some o =>
      (Ok tt,
       set_heap (fun h => {| objects := <[options := {| args := Some a; headless := headless o |}]> (objects h);
                             arrays := arrays h |}) w)
  | None => dangling w
  end.

(** The elements of an array. *)
Definition elements_of (a : loc) : M (list string) := fun w =>
  match arrays (heap w) !! a with
  | Some xs => (Ok xs, w)
  | None => dangling w
  end.

(** [a.push(x)] *)
Definition push (a : loc) (x : string) : M unit := fun w =>
  match arrays (heap w) !! a with
  | Some xs =>
      (Ok tt, set_heap (fun h => {| objects := objects h; arrays := <[a := xs ++ [x]]> (arrays h) |}) w)
  | None => dangling w
  end.

(** [await puppeteer.launch({...options, headless: mode})]: the engine
    receives the elements that the [args] array holds at the time of the
    call. *)
Definition launch (E : Engine) (options : loc) (mode : string) : M unit :=
  a <- get_args options ;;
  xs <- match a with Some a => elements_of a | None => ret [] end ;;
  engineCall E (Launch xs mode) (set_browserRunning true).

(** [s.replace(pat, "")] for a string pattern: the first occurrence of
    [pat] is removed. *)
Fixpoint replace_first (pat s : string) : string :=
  if String.prefix pat s then String.substring (String.length pat) (String.length s - String.length pat) s
  else match s with
       | EmptyString => EmptyString
       | String c r => String c (replace_first pat r)
       end.

(** The loop of [create] over the arguments the browser process was spawned
    with: the first one that starts with [--user-data-dir=] gives the
    directory. *)
Fixpoint scan_user_data_dir (spawn : list string) : option string :=
  match spawn with
  | [] => None
  | arg :: rest =>
      if String.prefix "--user-data-dir=" arg
      then Some (replace_first "--user-data-dir=" arg)
      else scan_user_data_dir rest
  end.

(** [browser.process()?.spawnargs || []] *)
Definition chromeSpawnArgs (E : Engine) : M (list string) := fun w =>
  (Ok (default [] (spawnargs E (trace w))), w).

(** The five flags [create] adds. *)
Definition fixed_flags : list string :=
  ["--no-sandbox"; "--disable-web-security"; "--disable-dev-shm-usage";
   "--disk-cache-size=0"; "--aggressive-cache-discard"].

(** [const { credentials, emulateMediaType, headers, ...options } = pageOptions]:
    the rest holds the navigation options only. *)
Definition rest_options (o : PageOptions) : PageOptions :=
  {| timeout := timeout o; waitUntil := waitUntil o;
     credentials := None; emulateMediaType := None; headers := None |}.

(** [{ ...pageOptions, emulateMediaType: pageOptions.emulateMediaType || 'print' }] *)
Definition print_by_default (o : PageOptions) : PageOptions :=
  {| timeout := timeout o; waitUntil := waitUntil o;
     credentials := credentials o;
     emulateMediaType := Some (default print (emulateMediaType o));
     headers := headers o |}.

(** [{ ...options, quality: options.type === 'png' ? undefined : options.quality }]
    where [options] is [screenshotOptions] without [animationTimeout]. *)
Definition capture_options (o : ScreenshotOptions) : CaptureOptions :=
  {| cap_type := type o;
     cap_quality := if String.eqb (type o) "png" then None else quality o;
     cap_rest := shot_rest o |}.

Inductive Browser : Set := TheBrowser.

(** The value a screenshot call resolves to: [{ type, buffer }]. *)
Record Shot := { shot_type : string; shot_buffer : Buffer }.

(** ** First revision (lines 1-166 of the file) *)
Module V1.

Record Renderer := {
  browser : Browser;
  chromeTmpDataDir : option string;
}.

(** [closePage]: the whole body sits in a [try] whose [catch] is empty. *)
Definition closePage (E : Engine) (page : option Page) : M unit :=
  try_catch
    (match page with
     | Some p =>
         closed <- page_isClosed p ;;
         when (negb closed) (pageCall E p Close)
     | None => ret tt
     end)
    (fun _ => ret tt).

(** The body of the [try] of [createPage] after the page was assigned. *)
Definition configure (E : Engine) (page : Page) (url : string)
    (pageOptions : PageOptions) : M Page :=
  pageOn page "error" ;;
  match headers pageOptions with
  | Some h =>
      if truthy h
      then j <- parseJSON E h ;; pageCall E page (SetExtraHTTPHeaders j)
      else ret tt
  | None => ret tt
  end ;;
  match emulateMediaType pageOptions with
  | Some m => pageCall E page (EmulateMediaType m)
  | None => ret tt
  end ;;
  match credentials pageOptions with
  | Some c => pageCall E page (Authenticate c)
  | None => ret tt
  end ;;
  pageCall E page (SetCacheEnabled false) ;;
  pageCall E page (Goto url (rest_options pageOptions)) ;;
  ret page.

Definition createPage (E : Engine) (url : string) (pageOptions : PageOptions)
    : M Page :=
  let_try_catch (newPage E)
    (fun page => configure E page url pageOptions)
    (fun page e =>
       console_log (LogError e) ;;
       closePage E page ;;
       throw e).

Definition html (E : Engine) (url : string) (pageOptions : PageOptions)
    : M string :=
  let_try_finally (createPage E url pageOptions)
    (fun page => content E page)
    (closePage E).

Definition pdf (E : Engine) (url : string) (pageOptions : PageOptions)
    (pdfOptions : PdfOptions) : M Buffer :=
  let_try_finally (createPage E url (print_by_default pageOptions))
    (fun page => pdfBytes E page pdfOptions)
    (closePage E).

(** The body of the [try] of [screenshot] after the page was assigned. *)
Definition capture (E : Engine) (page : Page)
    (pageViewportOptions : PageViewportOptions)
    (screenshotOptions : ScreenshotOptions) : M Shot :=
  pageCall E page (SetViewport pageViewportOptions) ;;
  when (0 <? animationTimeout screenshotOptions)%Z
    (pageCall E page
       (WaitForAnimations screenshotOptions (animationTimeout screenshotOptions))) ;;
  buffer <- screenshotBytes E page (capture_options screenshotOptions) ;;
  ret {| shot_type := type screenshotOptions; shot_buffer := buffer |}.

Definition screenshot (E : Engine) (url : string) (pageOptions : PageOptions)
    (pageViewportOptions : PageViewportOptions)
    (screenshotOptions : ScreenshotOptions) : M Shot :=
  let_try_finally (createPage E url pageOptions)
    (fun page => capture E page pageViewportOptions screenshotOptions)
    (closePage E).

Definition close (E : Engine) (r : Renderer) : M unit :=
  browserClose E ;;
  match chromeTmpDataDir r with
  | Some dir => when (truthy dir) (removeSync E dir)
  | None => ret tt
  end.

(** [create(options)]; [None] is a call without argument, for which the
    default [{}] is a fresh object.  The assignment to the exported
    variable [renderer] is left out: nothing in the file reads it. *)
Definition create (E : Engine) (options : option loc) : M Renderer :=
  options <- match options with
             | Some o => ret o
             | None => new_object {| args := None; headless := None |}
             end ;;
  a <- get_args options ;;
  match a with
  | Some _ => ret tt
  | None => a <- new_array [] ;; set_args options a
  end ;;
  a <- get_args options ;;
  match a with
  | Some a =>
      push a "--no-sandbox" ;;
      push a "--disable-web-security" ;;
      push a "--disable-dev-shm-usage" ;;
      push a "--disk-cache-size=0" ;;
      push a "--aggressive-cache-discard"
  | None => dangling
  end ;;
  launch E options "new" ;;
  spawn <- chromeSpawnArgs E ;;
  console_log (LogInitialized options) ;;
  ret {| browser := TheBrowser; chromeTmpDataDir := scan_user_data_dir spawn |}.

End V1.

(** ** Second revision (lines 167-294 of the file) *)
Module V2.

Record Renderer : Set := { browser : Browser }.

(** [closePage]: only [page.close()] sits in the [try]; its failure is
    logged. *)
Definition closePage (E : Engine) (page : option Page) : M unit :=
  match page with
  | Some p =>
      closed <- page_isClosed p ;;
      when (negb closed)
        (try_catch (pageCall E p Close)
           (fun e => console_log (LogCloseFailed e)))
  | None => ret tt
  end.

(** [createPage] has no [try] of its own. *)
Definition createPage (E : Engine) (url : string) (pageOptions : PageOptions)
    : M Page :=
  page <- newPage E ;;
  pageOn page "error" ;;
  match headers pageOptions with
  | Some h =>
      if truthy h
      then j <- parseJSON E h ;; pageCall E page (SetExtraHTTPHeaders j)
      else ret tt
  | None => ret tt
  end ;;
  match emulateMediaType pageOptions with
  | Some m => pageCall E page (EmulateMediaType m)
  | None => ret tt
  end ;;
  match credentials pageOptions with
  | Some c => pageCall E page (Authenticate c)
  | None => ret tt
  end ;;
  pageCall E page (SetCacheEnabled false) ;;
  pageCall E page (Goto url (rest_options pageOptions)) ;;
  ret page.

Definition withPage {T} (E : Engine) (fn : Page -> M T) (url : string)
    (pageOptions : PageOptions) : M T :=
  let_try_finally (createPage E url pageOptions) fn (closePage E).

Definition html (E : Engine) (url : string) (pageOptions : PageOptions)
    : M string :=
  withPage E
    (fun page => pageCall E page (Goto url pageOptions) ;; content E page)
    url pageOptions.

Definition pdf (E : Engine) (url : string) (pageOptions : PageOptions)
    (pdfOptions : PdfOptions) : M Buffer :=
  withPage E (fun page => pdfBytes E page pdfOptions)
    url (print_by_default pageOptions).

Definition screenshot (E : Engine) (url : string) (pageOptions : PageOptions)
    (pageViewportOptions : PageViewportOptions)
    (screenshotOptions : ScreenshotOptions) : M Buffer :=
  withPage E
    (fun page =>
       pageCall E page (SetViewport pageViewportOptions) ;;
       when (0 <? animationTimeout screenshotOptions)%Z
         (pageCall E page
            (WaitForAnimations screenshotOptions (animationTimeout screenshotOptions))) ;;
       screenshotBytes E page (capture_options screenshotOptions))
    url pageOptions.

Definition close (E : Engine) (r : Renderer) : M unit := browserClose E.

(** [create(options)]: [options.args] is assigned a new array that holds
    the former elements and then the five flags. *)
Definition create (E : Engine) (options : option loc) : M Renderer :=
  options <- match options with
             | Some o => ret o
             | None => new_object {| args := None; headless := None |}
             end ;;
  a <- get_args options ;;
  old <- match a with Some a => elements_of a | None => ret [] end ;;
  a' <- new_array (old ++ fixed_flags) ;;
  set_args options a' ;;
  launch E options "shell" ;;
  console_log (LogInitialized options) ;;
  ret {| browser := TheBrowser |}.

End V2.

(** ** A reader for JSON texts

    [JSON.parse] is a field of the [Engine]; this reader of the JSON grammar
    (ECMA-404) is what the engines of the examples below are given. *)
Module JSON.

Definition dquote : ascii := ascii_of_nat 34.
Definition backslash : ascii := ascii_of_nat 92.

Definition is_ws (c : ascii) : bool :=
  let n := nat_of_ascii c in
  Nat.eqb n 32 || Nat.eqb n 9 || Nat.eqb n 10 || Nat.eqb n 13.

Definition is_digit (c : ascii) : bool :=
  let n := nat_of_ascii c in Nat.leb 48 n && Nat.leb n 57.

Definition is_hex (c : ascii) : bool :=
  let n := nat_of_ascii c in
  is_digit c || (Nat.leb 65 n && Nat.leb n 70) || (Nat.leb 97 n && Nat.leb n 102).

Definition is_escape (c : ascii) : bool :=
  Ascii.eqb c dquote || Ascii.eqb c backslash ||
  existsb (Ascii.eqb c) ["/"; "b"; "f"; "n"; "r"; "t"]%char.

Fixpoint skip_ws (s : string) : string :=
  match s with
  | String c r => if is_ws c then skip_ws r else s
  | EmptyString => s
  end.

(** The longest run of digits at the head of [s], and what follows. *)
Fixpoint digits (s : string) : string * string :=
  match s with
  | String c r =>
      if is_digit c then let '(d, r') := digits r in (String c d, r') else ("", s)
  | EmptyString => ("", s)
  end.

(** A number: an optional minus sign, an integer part without a leading
    zero (unless it is [0] alone), an optional fraction (a dot and at least
    one digit) and an optional exponent ([e] or [E], an optional sign and
    at least one digit). *)
Definition number (s : string) : option (string * string) :=
  let '(sign, s1) :=
    match s with
    | String "-" r => ("-", r)
    | _ => ("", s)
    end in
  let '(int, s2) := digits s1 in
  let int_ok :=
    match int with
    | EmptyString => false
    | String "0" (String _ _) => false
    | _ => true
    end in
  let frac :=
    match s2 with
    | String "." r =>
        let '(d, r') := digits r in
        if String.eqb d "" then None else Some ("." +:+ d, r')
    | _ => Some ("", s2)
    end in
  match frac with
  | Some (f, s3) =>
      let exp :=
        match s3 with
        | String e r =>
            if Ascii.eqb e "e" || Ascii.eqb e "E" then
              let '(sg, r1) :=
                match r with
                | String "+" r' => ("+", r')
                | String "-" r' => ("-", r')
                | _ => ("", r)
                end in
              let '(d, r2) := digits r1 in
              if String.eqb d "" then None else Some (String e (sg +:+ d), r2)
            else Some ("", s3)
        | EmptyString => Some ("", s3)
        end in
      match exp with
      | Some (x, s4) => if int_ok then Some (sign +:+ int +:+ f +:+ x, s4) else None
      | None => None
      end
  | None => None
  end.

(** The characters of a string literal after its opening quote, up to the
    closing quote. *)
Fixpoint chars (s : string) : option (string * string) :=
  match s with
  | EmptyString => None
  | String c r =>
      if Ascii.eqb c dquote then Some ("", r)
      else if Ascii.eqb c backslash then
        match r with
        | String e r1 =>
            if is_escape e then
              match chars r1 with
              | Some (t, r') => Some (String c (String e t), r')
              | None => None
              end
            else if Ascii.eqb e "u" then
              match r1 with
              | String h1 (String h2 (String h3 (String h4 r2))) =>
                  if is_hex h1 && is_hex h2 && is_hex h3 && is_hex h4 then
                    match chars r2 with
                    | Some (t, r') =>
                        Some (String c (String e (String h1 (String h2 (String h3 (String h4 t))))), r')
                    | None => None
                    end
                  else None
              | _ => None
              end
            else None
        | EmptyString => None
        end
      else if Nat.ltb (nat_of_ascii c) 32 then None
      else
        match chars r with
        | Some (t, r') => Some (String c t, r')
        | None => None
        end
  end.

(** [s] starts with the word [w]: what follows it. *)
Definition word (w s : string) : option string :=
  if String.prefix w s
  then Some (String.substring (String.length w) (String.length s - String.length w) s)
  else None.

Fixpoint value (fuel : nat) (s : string) {struct fuel} : option (json * string) :=
  match fuel with
  | 0 => None
  | S fuel =>
      match skip_ws s with
      | EmptyString => None
      | String c r =>
          if Ascii.eqb c "{" then
            match skip_ws r with
            | String "}" r' => Some (JObject [], r')
            | _ =>
                match members fuel r with
                | Some (ms, r') => Some (JObject ms, r')
                | None => None
                end
            end
          else if Ascii.eqb c "[" then
            match skip_ws r with
            | String "]" r' => Some (JArray [], r')
            | _ =>
                match elements fuel r with
                | Some (vs, r') => Some (JArray vs, r')
                | None => None
                end
            end
          else if Ascii.eqb c dquote then
            match chars r with
            | Some (t, r') => Some (JString t, r')
            | None => None
            end
          else
            match word "true" (String c r), word "false" (String c r), word "null" (String c r) with
            | Some r', _, _ => Some (JBool true, r')
            | _, Some r', _ => Some (JBool false, r')
            | _, _, Some r' => Some (JNull, r')
            | _, _, _ =>
                match number (String c r) with
                | Some (n, r') => Some (JNumber n, r')
                | None => None
                end
            end
      end
  end
with elements (fuel : nat) (s : string) {struct fuel} : option (list json * string) :=
  match fuel with
  | 0 => None
  | S fuel =>
      match value fuel s with
      | Some (v, r) =>
          match skip_ws r with
          | String "," r' =>
              match elements fuel r' with
              | Some (vs, r'') => Some (v :: vs, r'')
              | None => None
              end
          | String "]" r' => Some ([v], r')
          | _ => None
          end
      | None => None
      end
  end
with members (fuel : nat) (s : string) {struct fuel}
    : option (list (string * json) * string) :=
  match fuel with
  | 0 => None
  | S fuel =>
      match skip_ws s with
      | String c r =>
          if Ascii.eqb c dquote then
            match chars r with
            | Some (k, r1) =>
                match skip_ws r1 with
                | String ":" r2 =>
                    match value fuel r2 with
                    | Some (v, r3) =>
                        match skip_ws r3 with
                        | String "," r4 =>
                            match members fuel r4 with
                            | Some (ms, r5) => Some ((k, v) :: ms, r5)
                            | None => None
                            end
                        | String "}" r4 => Some ([(k, v)], r4)
                        | _ => None
                        end
                    | None => None
                    end
                | _ => None
                end
            | None => None
            end
          else None
      | EmptyString => None
      end
  end.

(** A text is JSON when it holds one value and white space around it. *)
Definition parse (s : string) : option json :=
  match value (2 * String.length s + 2) s with
  | Some (v, r) => if String.eqb (skip_ws r) "" then Some v else None
  | None => None
  end.

End JSON.

(** ** The course of a render call

    The specification describes a render call as a fixed sequence of steps on
    one page.  A [script] is such a sequence; [play] runs it until a step
    fails.  The functions of the source are shown below to run the scripts
    defined here. *)

Inductive step :=
| Do (op : pageOp)
| Fail (e : error).

Fixpoint play (E : Engine) (p : Page) (script : list step) : M unit :=
  match script with
  | [] => ret tt
  | Do op :: rest => pageCall E p op ;; play E p rest
  | Fail e :: _ => throw e
  end.

(** The events [play] adds to the history [t]. *)
Fixpoint played (E : Engine) (p : Page) (script : list step) (t : list event)
    : list event :=
  match script with
  | [] => []
  | Do op :: rest =>
      let r := respond E t (PageCall p op) in
      answered (PageCall p op) r ::
      match failure r with
      | None => played E p rest (t ++ [answered (PageCall p op) r])
      | Some _ => []
      end
  | Fail _ :: _ => []
  end.

(** [play] runs the whole script from the history [t]: no step fails. *)
Fixpoint completes (E : Engine) (p : Page) (script : list step) (t : list event)
    : bool :=
  match script with
  | [] => true
  | Do op :: rest =>
      let r := respond E t (PageCall p op) in
      match failure r with
      | None => completes E p rest (t ++ [answered (PageCall p op) r])
      | Some _ => false
      end
  | Fail _ :: _ => false
  end.

Definition headers_steps (E : Engine) (o : PageOptions) : list step :=
  match headers o with
  | Some h =>
      if truthy h then
        match JSON_parse E h with
        | Some j => [Do (SetExtraHTTPHeaders j)]
        | None => [Fail (SyntaxError h)]
        end
      else []
  | None => []
  end.

Definition media_steps (o : PageOptions) : list step :=
  match emulateMediaType o with
  | Some m => [Do (EmulateMediaType m)]
  | None => []
  end.

Definition auth_steps (o : PageOptions) : list step :=
  match credentials o with
  | Some c => [Do (Authenticate c)]
  | None => []
  end.

(** Headers, media type, credentials, cache, navigation. *)
Definition config_script (E : Engine) (url : string) (o : PageOptions) : list step :=
  headers_steps E o ++ media_steps o ++ auth_steps o ++
  [Do (SetCacheEnabled false); Do (Goto url (rest_options o))].

(** Viewport, the settler when the timeout is positive, the capture. *)
Definition capture_script (v : PageViewportOptions) (o : ScreenshotOptions)
    : list step :=
  Do (SetViewport v) ::
  (if (0 <? animationTimeout o)%Z
   then [Do (WaitForAnimations o (animationTimeout o))] else []) ++
  [Do (Screenshot (capture_options o))].

(** The page a call that starts in [w] opens, if it opens one. *)
Definition next_page (w : World) : Page := length (pages w).

(** A render call in outline: open a page, register the listener, play the
    script, close the page. *)
Definition course (E : Engine) (script : list step) : M unit :=
  let_try_finally (newPage E)
    (fun p => pageOn p "error" ;; play E p script)
    (V1.closePage E).

(** The events of a render call that follows its course from the world [w]:
    a failed opening alone, or the opening, what the script plays, and at
    most one close. *)
Definition course_events (E : Engine) (script : list step) (w : World)
    (evs : list event) : Prop :=
  match failure (respond E (trace w) NewPage) with
  | Some _ => evs = [Ev NewPage false]
  | None =>
      let p := next_page w in
      let opening := [Ev NewPage true; Ev (PageCall p (On "error")) true] in
      exists closing,
        evs = opening ++ played E p script (trace w ++ opening) ++ closing /\
        (closing = [] \/ exists ok, closing = [Ev (PageCall p Close) ok])
  end.

(** The same history of engine calls and the same page table. *)
Definition same_engine_state (w w' : World) : Prop :=
  trace w = trace w' /\ pages w = pages w'.

(** The computation [m] without its value. *)
Definition void {A} (m : M A) : M unit := m ;; ret tt.

Definition forget {A} (r : result A) : result unit :=
  match r with
  | Ok _ => Ok tt
  | Err e => Err e
  end.

(** The events a computation adds to the trace of [w]. *)
Definition events_of {A} (m : M A) (w : World) : list event :=
  drop (length (trace w)) (trace (m w).2).

(** The position of a call in the course of a render call. *)
Definition stage (c : call) : nat :=
  match c with
  | NewPage => 0
  | PageCall _ (On _) => 1
  | PageCall _ (SetExtraHTTPHeaders _) => 2
  | PageCall _ (EmulateMediaType _) => 3
  | PageCall _ (Authenticate _) => 4
  | PageCall _ (SetCacheEnabled _) => 5
  | PageCall _ (Goto _ _) => 6
  | PageCall _ Content => 7
  | PageCall _ (Pdf _) => 7
  | PageCall _ (SetViewport _) => 7
  | PageCall _ (WaitForAnimations _ _) => 8
  | PageCall _ (Screenshot _) => 9
  | PageCall _ Close => 10
  | _ => 11
  end.

(** Output extraction: content, PDF, and the steps of a screenshot. *)
Definition is_extraction (c : call) : bool :=
  match c with
  | PageCall _ (Content | Pdf _ | SetViewport _ | WaitForAnimations _ _ | Screenshot _) => true
  | _ => false
  end.

Definition is_config (c : call) : bool :=
  match c with
  | PageCall _ (SetExtraHTTPHeaders _ | EmulateMediaType _ | Authenticate _
                | SetCacheEnabled _ | Goto _ _) => true
  | _ => false
  end.

(** The calls of a script on page [p]. *)
Definition calls_of (p : Page) (script : list step) : list call :=
  omap (fun s => match s with Do op => Some (PageCall p op) | Fail _ => None end) script.

(** The events come in the order of the stages, each stage at most once. *)
Definition in_order (evs : list event) : Prop :=
  StronglySorted lt (map (fun e => stage (ev_call e)) evs).

(** Every configuration call among [evs] is one the options ask for. *)
Definition only_planned (E : Engine) (url : string) (o : PageOptions) (p : Page)
    (evs : list event) : Prop :=
  forall e, e ∈ evs -> is_config (ev_call e) = true ->
    ev_call e ∈ calls_of p (config_script E url o).

(** Every configuration step the options ask for has returned normally:
    the headers (when the string is not empty), the media type and the
    credentials (when supplied), the cache switch and the navigation. *)
Definition configured (E : Engine) (url : string) (o : PageOptions) (p : Page)
    (evs : list event) : Prop :=
  (forall h, headers o = Some h -> h <> "" ->
     exists j, JSON_parse E h = Some j /\
               Ev (PageCall p (SetExtraHTTPHeaders j)) true ∈ evs) /\
  (forall m, emulateMediaType o = Some m ->
     Ev (PageCall p (EmulateMediaType m)) true ∈ evs) /\
  (forall c, credentials o = Some c ->
     Ev (PageCall p (Authenticate c)) true ∈ evs) /\
  Ev (PageCall p (SetCacheEnabled false)) true ∈ evs /\
  Ev (PageCall p (Goto url (rest_options o))) true ∈ evs.

(** The events of a call are in the order of the stages, hold no
    configuration call beyond those the options ask for, and hold an
    extraction call only when the configuration is complete. *)
Definition configured_in_order (E : Engine) (url : string) (o : PageOptions)
    (w : World) (evs : list event) : Prop :=
  in_order evs /\
  only_planned E url o (next_page w) evs /\
  (forall e, e ∈ evs -> is_extraction (ev_call e) = true ->
     configured E url o (next_page w) evs).

(** [a] is the event right before [b]. *)
Definition just_before (a b : event) (evs : list event) : Prop :=
  exists pre post, evs = pre ++ a :: b :: post.

(** The elements of [options.args] as the caller of [create] sees them
    through its reference to the options object; an absent [args] reads as
    no element. *)
Definition args_of (w : World) (options : loc) : option (list string) :=
  match objects (heap w) !! options with
  | Some o =>
      match args o with
      | Some a => arrays (heap w) !! a
      | None => Some []
      end
  | None => None
  end.

(** What [create] has done to the heap when it calls [launch]. *)
Definition flags_added (mode : string) (w : World) (options : loc) (w1 : World)
    : Prop :=
  trace w1 = trace w /\ pages w1 = pages w /\ files w1 = files w /\
  match objects (heap w) !! options with
  | Some o =>
      match args o with
      | Some a =>
          exists old, arrays (heap w) !! a = Some old /\
            (if String.eqb mode "new"
             then heap w1 = {| objects := objects (heap w);
                               arrays := <[a := old ++ fixed_flags]> (arrays (heap w)) |}
             else exists a', (a' ∉ dom (arrays (heap w))) /\
                  heap w1 = {| objects := <[options := {| args := Some a';
                                                          headless := headless o |}]>
                                            (objects (heap w));
                               arrays := <[a' := old ++ fixed_flags]> (arrays (heap w)) |})
      | None =>
          exists a', (a' ∉ dom (arrays (heap w))) /\
            heap w1 = {| objects := <[options := {| args := Some a';
                                                    headless := headless o |}]>
                                      (objects (heap w));
                         arrays := <[a' := fixed_flags]> (arrays (heap w)) |}
      end
  | None => False
  end.

(** The browser, the files and the heap. *)
Definition surroundings (w : World) : bool * gset string * Heap :=
  (browserRunning w, files w, heap w).

(** The computation [m] changes neither the browser, nor the files, nor the
    heap. *)
Definition keeps_surroundings {A} (m : M A) : Prop :=
  forall w, surroundings (m w).2 = surroundings w.

(** The computation fails with the engine's [message] before any page
    exists: the one call made is the rejected [browser.newPage()]. *)
Definition fails_without_page {A} (message : string) (m : M A) (w : World) : Prop :=
  (m w).1 = Err (EngineError message) /\
  events_of m w = [Ev NewPage false] /\
  pages (m w).2 = pages w.

(** The first two events of a call whose page was opened. *)
Definition opening (w : World) : list event :=
  [Ev NewPage true; Ev (PageCall (next_page w) (On "error")) true].

(** The engine opens a page for the call that starts in [w]. *)
Definition page_opens (E : Engine) (w : World) : Prop :=
  failure (respond E (trace w) NewPage) = None.

(** Once the page of the call that starts in [w] is opened, the engine
    accepts every step of [script] (and the script has no step that fails by
    itself). *)
Definition accepted (E : Engine) (w : World) (script : list step) : Prop :=
  completes E (next_page w) script (trace w ++ opening w) = true.

(** The computation [m] carries out [script] on a page of its own: its
    events are those of the course of the script; it returns a value exactly
    when the page opens and every step is accepted; every step is called as
    soon as the page is open and the steps before it are accepted, and the
    steps that were accepted have returned normally; and when all steps are
    accepted the events are the opening, the calls of the script in their
    order, each returned normally, and at most one close. *)
Definition carries_out {A} (E : Engine) (script : list step) (w : World)
    (m : M A) : Prop :=
  course_events E script w (events_of m w) /\
  ((exists a, (m w).1 = Ok a) <-> page_opens E w /\ accepted E w script) /\
  (forall before op after, script = before ++ Do op :: after ->
     page_opens E w -> accepted E w before ->
     exists ok, Ev (PageCall (next_page w) op) ok ∈ events_of m w) /\
  (forall before after, script = before ++ after ->
     page_opens E w -> accepted E w before ->
     forall c, c ∈ calls_of (next_page w) before -> Ev c true ∈ events_of m w) /\
  (page_opens E w -> accepted E w script ->
   exists closing,
     events_of m w =
       opening w ++ map (fun c => Ev c true) (calls_of (next_page w) script) ++ closing /\
     (closing = [] \/ exists ok, closing = [Ev (PageCall (next_page w) Close) ok])).

(** The steps of a screenshot before the capture: the viewport, and the
    settler when the timeout is positive. *)
Definition viewport_script (v : PageViewportOptions) (o : ScreenshotOptions)
    : list step :=
  Do (SetViewport v) ::
  (if (0 <? animationTimeout o)%Z
   then [Do (WaitForAnimations o (animationTimeout o))] else []).

(** The engine [E] with its answers to [page.close()] replaced. *)
Definition with_close (E : Engine) (f : list event -> Page -> reply) : Engine :=
  {| JSON_parse := JSON_parse E;
     respond := fun t c =>
       match c with
       | PageCall p Close => f t p
       | _ => respond E t c
       end;
     content_of := content_of E;
     pdf_of := pdf_of E;
     screenshot_of := screenshot_of E;
     spawnargs := spawnargs E |}.

(** The engine never rejects [page.close()]. *)
Definition close_accepted (E : Engine) : Prop :=
  forall t p, failure (respond E t (PageCall p Close)) = None.

Definition closed_count (w : World) : nat :=
  length (filter (fun s => s = PageClosed) (pages w)).

(** The number of pages a computation opens and the number of pages that
    become closed while it runs. *)
Definition opened_during {A} (m : M A) (w : World) : nat :=
  length (pages (m w).2) - length (pages w).

Definition closed_during {A} (m : M A) (w : World) : nat :=
  closed_count (m w).2 - closed_count w.

(** The computation leaves the page table as it was, but for a page of its
    own that it opened and that is closed again. *)
Definition closes_its_page {A} (m : M A) (w : World) : Prop :=
  pages (m w).2 = pages w \/ pages (m w).2 = pages w ++ [PageClosed].

(** No page leak: as many pages were closed as were opened. *)
Definition no_page_leak {A} (m : M A) (w : World) : Prop :=
  opened_during m w = closed_during m w.

(** Modelled from the spec: section 7 calls the failure on malformed header
    JSON [BadOptionsError]; the source has no class of that name, what is
    thrown is the [SyntaxError] of [JSON.parse]. *)
Definition BadOptionsError (e : error) : Prop := exists text, e = SyntaxError text.

(** Modelled from the spec: the lossless format among the engine's formats is
    [png]. *)
Definition lossless (format : string) : bool := String.eqb format "png".

(** ** Engines and worlds of the examples *)

Definition accepts : reply := {| failure := None; target_gone := false |}.

Definition rejects (message : string) : reply :=
  {| failure := Some message; target_gone := false |}.

(** An engine that accepts every call. *)
Definition obliging : Engine :=
  {| JSON_parse := JSON.parse;
     respond := fun _ _ => accepts;
     content_of := fun _ _ => "<!DOCTYPE html><html><body>hello</body></html>";
     pdf_of := fun _ _ _ => [x25; x50; x44; x46];
     screenshot_of := fun _ _ _ => [x89; x50; x4e; x47];
     spawnargs := fun _ =>
       Some ["/usr/bin/chromium"; "--headless=new";
             "--user-data-dir=/tmp/puppeteer_dev_chrome_profile-Ab12"; "about:blank"] |}.

(** An engine that rejects every [page.close()] and leaves the page open. *)
Definition stubborn : Engine :=
  with_close obliging (fun _ _ => rejects "Protocol error (Target.closeTarget)").

(** An engine that cannot reach the host. *)
Definition offline : Engine :=
  {| JSON_parse := JSON.parse;
     respond := fun _ c =>
       match c with
       | PageCall _ (Goto _ _) => rejects "net::ERR_NAME_NOT_RESOLVED"
       | _ => accepts
       end;
     content_of := content_of obliging;
     pdf_of := pdf_of obliging;
     screenshot_of := screenshot_of obliging;
     spawnargs := spawnargs obliging |}.

(** A world with a running browser and no page. *)
Definition idle : World :=
  {| trace := []; pages := []; console := []; browserRunning := true;
     files := {["/tmp/puppeteer_dev_chrome_profile-Ab12"]};
     heap := {| objects := ∅; arrays := ∅ |} |}.

(** A world in which a caller holds an options object (at 0) whose [args]
    is an array (at 0) with one element. *)
Definition with_caller_options : World :=
  {| trace := []; pages := []; console := []; browserRunning := false;
     files := ∅;
     heap := {| objects := {[ 0 := {| args := Some 0; headless := None |} ]};
                arrays := {[ 0 := ["--window-size=800,600"] ]} |} |}.

Definition plain : PageOptions :=
  {| timeout := Some 30000%Z; waitUntil := Some "networkidle2";
     credentials := None; emulateMediaType := None; headers := None |}.

Definition with_headers (h : string) : PageOptions :=
  {| timeout := Some 30000%Z; waitUntil := Some "networkidle2";
     credentials := None; emulateMediaType := None; headers := Some h |}.

(** ** Facts about the monad and the primitives *)

Lemma pageCall_trace E p op w :
  trace (pageCall E p op w).2 =
  trace w ++ [answered (PageCall p op) (respond E (trace w) (PageCall p op))].
Proof. unfold pageCall. simpl. destruct (closes _ _); reflexivity. Qed.

Lemma pageCall_result E p op w :
  (pageCall E p op w).1 = outcome (respond E (trace w) (PageCall p op)).
Proof. reflexivity. Qed.

Lemma mark_closed_twice p ps : mark_closed p (mark_closed p ps) = mark_closed p ps.
Proof. unfold mark_closed. apply list_insert_insert_eq. Qed.

Lemma pageCall_pages E p op w :
  pages (pageCall E p op w).2 = pages w \/
  pages (pageCall E p op w).2 = mark_closed p (pages w).
Proof. unfold pageCall. simpl. destruct (closes _ _); auto. Qed.

Lemma play_app E p s1 s2 w :
  play E p (s1 ++ s2) w = (play E p s1 ;; play E p s2) w.
Proof.
  revert w. induction s1 as [|[op|e] s1 IH]; intros w; simpl.
  - reflexivity.
  - unfold bind in *. destruct (pageCall E p op w) as [[[]|e] w1].
    + apply IH.
    + reflexivity.
  - reflexivity.
Qed.

Lemma play_trace E p script w :
  trace (play E p script w).2 = trace w ++ played E p script (trace w).
Proof.
  revert w. induction script as [|[op|e] rest IH]; intros w; simpl.
  - by rewrite app_nil_r.
  - unfold bind. pose proof (pageCall_trace E p op w) as Ht.
    pose proof (pageCall_result E p op w) as Hr.
    destruct (pageCall E p op w) as [r w1]. simpl in Ht, Hr. subst r.
    unfold outcome. destruct (failure _) eqn:Hf; simpl.
    + by rewrite Ht.
    + rewrite IH, Ht, <- app_assoc. reflexivity.
  - by rewrite app_nil_r.
Qed.

Lemma play_pages E p script w :
  pages (play E p script w).2 = pages w \/
  pages (play E p script w).2 = mark_closed p (pages w).
Proof.
  revert w. induction script as [|[op|e] rest IH]; intros w; simpl; auto.
  unfold bind. pose proof (pageCall_pages E p op w) as Hp.
  destruct (pageCall E p op w) as [[[]|e] w1]; simpl in Hp; auto.
  destruct (IH w1) as [H|H]; rewrite H; destruct Hp as [Hp|Hp]; rewrite Hp; auto.
  rewrite mark_closed_twice. auto.
Qed.

(** ** The functions of the source run the scripts *)

Ltac run_calls :=
  unfold bind, ret, throw;
  repeat (match goal with
          | |- context [pageCall ?E ?p ?op ?w] =>
              destruct (pageCall E p op w) as [[[]|?] ?]
          end; cbn beta iota);
  try reflexivity.

Lemma configure_plays E p url o w :
  V1.configure E p url o w =
  (pageOn p "error" ;; play E p (config_script E url o) ;; ret p) w.
Proof.
  unfold V1.configure, config_script, headers_steps, media_steps, auth_steps, parseJSON.
  destruct o as [tm wu [c|] [m|] [h|]]; cbn [credentials emulateMediaType headers app play];
    try destruct (truthy h); try destruct (JSON_parse E h); cbn [app play];
    unfold pageOn; run_calls.
Qed.

Lemma bind_ext {A B} (m : M A) (k k' : A -> M B) w :
  (forall a w1, k a w1 = k' a w1) -> bind m k w = bind m k' w.
Proof. intros H. unfold bind. destruct (m w) as [[a|e] w1]; [apply H|reflexivity]. Qed.

Lemma createPage_v2_plays E url o w :
  V2.createPage E url o w =
  (p <- newPage E ;; pageOn p "error" ;; play E p (config_script E url o) ;; ret p) w.
Proof.
  unfold V2.createPage. apply bind_ext. intros p w1. apply (configure_plays E p url o w1).
Qed.

Lemma content_plays E p w : void (content E p) w = play E p [Do Content] w.
Proof. unfold void, content; cbn [play]. run_calls. Qed.

Lemma pdfBytes_plays E p o w : void (pdfBytes E p o) w = play E p [Do (Pdf o)] w.
Proof. unfold void, pdfBytes; cbn [play]. run_calls. Qed.

Lemma capture_plays E p v o w :
  void (V1.capture E p v o) w = play E p (capture_script v o) w.
Proof.
  unfold void, V1.capture, capture_script, screenshotBytes, when.
  destruct (0 <? animationTimeout o)%Z; cbn [app play]; run_calls.
Qed.

(** ** Closing a page never throws *)

Lemma closePage_v1_ok E page w : (V1.closePage E page w).1 = Ok tt.
Proof.
  unfold V1.closePage, try_catch, bind, page_isClosed, when, ret.
  destruct page as [p|]; [|reflexivity].
  destruct (negb (isClosed p w)); [|reflexivity].
  destruct (pageCall E p Close w) as [[[]|e] w1]; reflexivity.
Qed.

Lemma closePage_v2_ok E page w : (V2.closePage E page w).1 = Ok tt.
Proof.
  unfold V2.closePage, try_catch, bind, page_isClosed, when, ret, console_log.
  destruct page as [p|]; [|reflexivity].
  destruct (negb (isClosed p w)); [|reflexivity].
  destruct (pageCall E p Close w) as [[[]|e] w1]; reflexivity.
Qed.

(** A finaliser that cannot throw leaves the outcome of the body alone. *)
Lemma try_finally_result {A} (body : M A) (fin : M unit) w :
  (forall w1, (fin w1).1 = Ok tt) ->
  (try_finally body fin w).1 = (body w).1.
Proof.
  intros Hfin. unfold try_finally. destruct (body w) as [r w1].
  specialize (Hfin w1). destruct (fin w1) as [[[]|e] w2]; simpl in *; congruence.
Qed.

Lemma try_finally_world {A} (body : M A) (fin : M unit) w :
  (try_finally body fin w).2 = (fin (body w).2).2.
Proof.
  unfold try_finally. destruct (body w) as [r w1]. simpl.
  destruct (fin w1) as [[[]|e] w2]; reflexivity.
Qed.

(** What closing does to the page table: nothing but closing that page. *)
Lemma closePage_v1_pages E p w :
  pages (V1.closePage E (Some p) w).2 = pages w \/
  pages (V1.closePage E (Some p) w).2 = mark_closed p (pages w).
Proof.
  unfold V1.closePage, try_catch, bind, page_isClosed, when, ret.
  destruct (negb (isClosed p w)); auto.
  pose proof (pageCall_pages E p Close w) as H.
  destruct (pageCall E p Close w) as [[[]|e] w1]; exact H.
Qed.

Lemma isClosed_mark_closed p w :
  p < length (pages w) -> isClosed p w = true -> mark_closed p (pages w) = pages w.
Proof.
  unfold isClosed, mark_closed. intros Hp Hc.
  apply list_insert_id. destruct (pages w !! p) as [[]|] eqn:Hl.
  - discriminate.
  - reflexivity.
  - apply lookup_ge_None in Hl. lia.
Qed.

(** When the engine accepts the close, the page is closed afterwards. *)
Lemma closePage_v1_closes E p w :
  close_accepted E -> p < length (pages w) ->
  pages (V1.closePage E (Some p) w).2 = mark_closed p (pages w).
Proof.
  intros Hacc Hp. unfold V1.closePage, try_catch, bind, page_isClosed, when, ret.
  destruct (isClosed p w) eqn:Hc; simpl.
  - symmetry. by apply isClosed_mark_closed.
  - unfold pageCall, outcome, closes. rewrite Hacc. simpl.
    by rewrite orb_true_r.
Qed.

Lemma closePage_v1_trace E p w :
  trace (V1.closePage E (Some p) w).2 = trace w \/
  exists ok, trace (V1.closePage E (Some p) w).2 = trace w ++ [Ev (PageCall p Close) ok].
Proof.
  unfold V1.closePage, try_catch, bind, page_isClosed, when, ret.
  destruct (negb (isClosed p w)); auto.
  right. pose proof (pageCall_trace E p Close w) as H.
  destruct (pageCall E p Close w) as [[[]|e] w1]; simpl in *; rewrite H; eauto.
Qed.

(** ** A render call of the first revision follows its course *)

Lemma pageCall_same E p op w w' :
  same_engine_state w w' ->
  (pageCall E p op w).1 = (pageCall E p op w').1 /\
  same_engine_state (pageCall E p op w).2 (pageCall E p op w').2.
Proof.
  intros [Ht Hp]. unfold pageCall, same_engine_state. simpl. rewrite Ht.
  split; [reflexivity|]. destruct (closes _ _); simpl; rewrite ?Ht, ?Hp; auto.
Qed.

Lemma closePage_v1_same E page w w' :
  same_engine_state w w' ->
  same_engine_state (V1.closePage E page w).2 (V1.closePage E page w').2.
Proof.
  intros Hs. unfold V1.closePage, try_catch, bind, page_isClosed, when, ret.
  destruct page as [p|]; [|exact Hs].
  assert (isClosed p w = isClosed p w') as <-.
  { unfold isClosed. by destruct Hs as [_ ->]. }
  destruct (negb (isClosed p w)); [|exact Hs].
  destruct (pageCall_same E p Close w w' Hs) as [Hr Hw].
  destruct (pageCall E p Close w) as [r1 w1], (pageCall E p Close w') as [r2 w2].
  simpl in *. subst r2. destruct r1 as [[]|e]; exact Hw.
Qed.

Lemma void_eq {A} (m : M A) w : void m w = (forget (m w).1, (m w).2).
Proof. unfold void, bind, ret. destruct (m w) as [[a|e] w1]; reflexivity. Qed.

(** [let x; try { x = await acquire; rest x } finally { fin x }] when the
    finaliser cannot throw. *)
Lemma let_try_finally_eval {A B} (acquire : M A) (rest : A -> M B)
    (fin : option A -> M unit) w :
  (forall x w1, (fin x w1).1 = Ok tt) ->
  let_try_finally acquire rest fin w =
  match acquire w with
  | (Ok x, w1) => ((rest x w1).1, (fin (Some x) (rest x w1).2).2)
  | (Err e, w1) => (Err e, (fin None w1).2)
  end.
Proof.
  intros Hfin. unfold let_try_finally, try_finally, throw.
  destruct (acquire w) as [[x|e] w1].
  - destruct (rest x w1) as [r w2]. simpl.
    pose proof (Hfin (Some x) w2) as H.
    destruct (fin (Some x) w2) as [[[]|e] w3]; simpl in H; [reflexivity|discriminate].
  - pose proof (Hfin None w1) as H.
    destruct (fin None w1) as [[[]|e'] w3]; simpl in H; [reflexivity|discriminate].
Qed.

Lemma createPage_v1_eval E url o w :
  V1.createPage E url o w =
  match newPage E w with
  | (Ok p, w1) =>
      match play E p (config_script E url o) (pageOn p "error" w1).2 with
      | (Ok _, w3) => (Ok p, w3)
      | (Err e, w3) =>
          (Err e, (V1.closePage E (Some p) (console_log (LogError e) w3).2).2)
      end
  | (Err e, w1) => (Err e, (console_log (LogError e) w1).2)
  end.
Proof.
  unfold V1.createPage, let_try_catch. destruct (newPage E w) as [[p|e] w1].
  - unfold try_catch. rewrite configure_plays. unfold bind, pageOn, ret. cbn beta iota.
    simpl snd.
    destruct (play E p (config_script E url o) _) as [[[]|e] w3]; [reflexivity|].
    unfold console_log. cbn beta iota. simpl snd.
    pose proof (closePage_v1_ok E (Some p) (set_console (λ c, c ++ [LogError e]) w3)) as H.
    destruct (V1.closePage E (Some p) _) as [[[]|e'] w4]; simpl in H;
      [reflexivity|discriminate].
  - unfold bind, console_log, V1.closePage, try_catch, ret, throw. reflexivity.
Qed.

Lemma course_eval E script w :
  course E script w =
  match newPage E w with
  | (Ok p, w1) =>
      let r := play E p script (pageOn p "error" w1).2 in
      (r.1, (V1.closePage E (Some p) r.2).2)
  | (Err e, w1) => (Err e, w1)
  end.
Proof.
  unfold course. rewrite let_try_finally_eval by (intros; apply closePage_v1_ok).
  destruct (newPage E w) as [[p|e] w1]; reflexivity.
Qed.

Section FirstRevision.

Context {A : Type} (E : Engine) (url : string) (o : PageOptions).
Context (body : Page -> M A) (script : list step).
Hypothesis body_plays : forall p w, void (body p) w = play E p script w.

(** The shape that [html], [pdf] and [screenshot] share. *)
Let call : M A := let_try_finally (V1.createPage E url o) body (V1.closePage E).

Lemma call_follows_course w :
  same_engine_state (call w).2 (course E (config_script E url o ++ script) w).2 /\
  forget (call w).1 = (course E (config_script E url o ++ script) w).1.
Proof.
  unfold call. rewrite let_try_finally_eval by (intros; apply closePage_v1_ok).
  rewrite createPage_v1_eval, course_eval.
  destruct (newPage E w) as [[p|e] w1].
  - rewrite play_app. unfold bind at 1 2.
    destruct (play E p (config_script E url o) _) as [[[]|e] w3]; cbn beta iota zeta.
    + rewrite <- body_plays, void_eq. simpl. split; [split|]; reflexivity.
    + simpl. split; [|reflexivity].
      apply closePage_v1_same. split; reflexivity.
  - simpl. split; [split|]; reflexivity.
Qed.

End FirstRevision.

(** ** What a script plays *)

Lemma played_calls E p script t :
  map ev_call (played E p script t) `prefix_of` calls_of p script.
Proof.
  revert t. induction script as [|[op|e] rest IH]; intros t; simpl.
  - done.
  - destruct (failure _).
    + apply prefix_cons, prefix_nil.
    + apply prefix_cons, IH.
  - apply prefix_nil.
Qed.

Lemma played_app E p s1 s2 t :
  played E p (s1 ++ s2) t =
  played E p s1 t ++
  (if completes E p s1 t then played E p s2 (t ++ played E p s1 t) else []).
Proof.
  revert t. induction s1 as [|[op|e] s1 IH]; intros t; simpl.
  - by rewrite app_nil_r.
  - destruct (failure _); [reflexivity|].
    rewrite IH, <- app_assoc. reflexivity.
  - reflexivity.
Qed.

Lemma played_complete E p script t :
  completes E p script t = true ->
  played E p script t = map (fun c => Ev c true) (calls_of p script).
Proof.
  revert t. induction script as [|[op|e] rest IH]; intros t; simpl; try done.
  unfold answered. destruct (failure _); [done|].
  intros H. by rewrite (IH _ H).
Qed.

Lemma completes_no_fail E p script t :
  completes E p script t = true -> forall e, Fail e ∉ script.
Proof.
  revert t. induction script as [|[op|e'] rest IH]; intros t; simpl.
  - intros _ e He. inversion He.
  - destruct (failure _); [done|]. intros H e He.
    apply elem_of_cons in He as [He|He]; [discriminate|]. by eapply IH.
  - done.
Qed.

Lemma play_result E p script w :
  (play E p script w).1 = Ok tt <-> completes E p script (trace w) = true.
Proof.
  revert w. induction script as [|[op|e] rest IH]; intros w; simpl.
  - done.
  - unfold bind. pose proof (pageCall_trace E p op w) as Ht.
    pose proof (pageCall_result E p op w) as Hr.
    destruct (pageCall E p op w) as [r w1]. simpl in Ht, Hr. subst r.
    unfold outcome. destruct (failure _); simpl.
    + done.
    + by rewrite IH, Ht.
  - done.
Qed.

(** ** What a course leaves behind *)

Lemma newPage_eval E w :
  newPage E w =
  match failure (respond E (trace w) NewPage) with
  | None =>
      (Ok (next_page w),
       set_pages
         (fun ps => ps ++ [if target_gone (respond E (trace w) NewPage)
                           then PageClosed else PageOpen])
         (set_trace (fun t => t ++ [Ev NewPage true]) w))
  | Some msg =>
      (Err (EngineError msg), set_trace (fun t => t ++ [Ev NewPage false]) w)
  end.
Proof. unfold newPage, answered. destruct (failure _); reflexivity. Qed.

Lemma course_has_events E script w :
  course_events E script w (events_of (course E script) w).
Proof.
  unfold course_events, events_of. rewrite course_eval, newPage_eval.
  destruct (failure _) as [msg|].
  - simpl. by rewrite drop_app_length.
  - cbv zeta. unfold snd at 1.
    match goal with
    | |- context [V1.closePage E (Some ?p) ?w0] =>
        destruct (closePage_v1_trace E p w0) as [Ht|[ok Ht]]
    end; rewrite Ht, play_trace; simpl.
    + exists []. split; [|by left].
      rewrite <- !app_assoc. rewrite drop_app_length. simpl. by rewrite app_nil_r.
    + exists [Ev (PageCall (next_page w) Close) ok]. split; [|right; eauto].
      rewrite <- !app_assoc. rewrite drop_app_length. reflexivity.
Qed.

Lemma course_pages E script w :
  close_accepted E ->
  pages (course E script w).2 =
  match failure (respond E (trace w) NewPage) with
  | None => pages w ++ [PageClosed]
  | Some _ => pages w
  end.
Proof.
  intros Hacc. rewrite course_eval, newPage_eval.
  destruct (failure _) as [msg|]; [reflexivity|].
  cbv zeta. unfold snd at 1.
  match goal with |- context [play E _ script ?w0] => set (w1 := w0) end.
  assert (pages w1 = pages w ++ [if target_gone (respond E (trace w) NewPage)
                                   then PageClosed else PageOpen]) as Hw1 by reflexivity.
  assert (mark_closed (next_page w) (pages w1) = pages w ++ [PageClosed]) as Hm.
  { rewrite Hw1. unfold mark_closed, next_page.
    rewrite insert_app_r_alt by lia. by rewrite Nat.sub_diag. }
  rewrite closePage_v1_closes; [|done|].
  - destruct (play_pages E (next_page w) script w1) as [H|H]; rewrite H.
    + done.
    + by rewrite mark_closed_twice.
  - destruct (play_pages E (next_page w) script w1) as [H|H]; rewrite H;
      unfold mark_closed; rewrite ?length_insert, Hw1, length_app; unfold next_page;
      simpl; lia.
Qed.

Lemma course_result E script w :
  (course E script w).1 =
  match failure (respond E (trace w) NewPage) with
  | None =>
      (play E (next_page w) script
         (pageOn (next_page w) "error" (newPage E w).2).2).1
  | Some msg => Err (EngineError msg)
  end.
Proof.
  rewrite course_eval. rewrite (newPage_eval E w) at 1.
  destruct (failure _) eqn:Hf; [reflexivity|].
  rewrite newPage_eval, Hf. reflexivity.
Qed.

(** ** The answer to [page.close()] does not reach the caller *)

Lemma pageCall_with_close E f p op w :
  op <> Close -> pageCall (with_close E f) p op w = pageCall E p op w.
Proof. intros H. destruct op; try reflexivity. done. Qed.

Lemma play_with_close E f p script w :
  Do Close ∉ script -> play (with_close E f) p script w = play E p script w.
Proof.
  revert w. induction script as [|[op|e] rest IH]; intros w Hn; simpl; try reflexivity.
  unfold bind. rewrite pageCall_with_close.
  - destruct (pageCall E p op w) as [[[]|e] w1]; [|reflexivity].
    apply IH. intros H. apply Hn. by right.
  - intros ->. apply Hn. by left.
Qed.

Lemma config_script_no_close E url o : Do Close ∉ config_script E url o.
Proof.
  unfold config_script, headers_steps, media_steps, auth_steps.
  destruct (headers o) as [h|]; [destruct (truthy h), (JSON_parse E h)|];
    destruct (emulateMediaType o), (credentials o); simpl;
    rewrite ?elem_of_cons, elem_of_nil; intuition discriminate.
Qed.

Lemma createPage_v1_with_close E f url o w :
  forget (V1.createPage (with_close E f) url o w).1 = forget (V1.createPage E url o w).1 /\
  forall p, (V1.createPage E url o w).1 = Ok p ->
    V1.createPage (with_close E f) url o w = V1.createPage E url o w.
Proof.
  rewrite !createPage_v1_eval.
  change (newPage (with_close E f) w) with (newPage E w).
  change (config_script (with_close E f) url o) with (config_script E url o).
  destruct (newPage E w) as [[p|e] w1]; [|split; [reflexivity|discriminate]].
  rewrite play_with_close by apply config_script_no_close.
  destruct (play E p (config_script E url o) _) as [[[]|e] w3];
    split; try reflexivity; discriminate.
Qed.

Section CloseDoesNotMatter.

Context {A : Type} (E : Engine) (f : list event -> Page -> reply).
Context (url : string) (o : PageOptions).
Context (body body' : Page -> M A).
Hypothesis same_body : forall p w, body' p w = body p w.

Lemma call_v1_with_close w :
  (let_try_finally (V1.createPage (with_close E f) url o) body'
     (V1.closePage (with_close E f)) w).1 =
  (let_try_finally (V1.createPage E url o) body (V1.closePage E) w).1.
Proof.
  rewrite !let_try_finally_eval by (intros; apply closePage_v1_ok).
  destruct (createPage_v1_with_close E f url o w) as [Hr Hw].
  destruct (V1.createPage E url o w) as [[p|e] w1] eqn:Hc.
  - rewrite (Hw p eq_refl). simpl. by rewrite same_body.
  - destruct (V1.createPage (with_close E f) url o w) as [[p'|e'] w1'];
      simpl in *; congruence.
Qed.

Lemma call_v2_with_close w :
  (V2.withPage (with_close E f) body' url o w).1 = (V2.withPage E body url o w).1.
Proof.
  unfold V2.withPage.
  rewrite !let_try_finally_eval by (intros; apply closePage_v2_ok).
  rewrite !createPage_v2_plays.
  change (config_script (with_close E f) url o) with (config_script E url o).
  unfold bind at 1 4. change (newPage (with_close E f) w) with (newPage E w).
  destruct (newPage E w) as [[p|e] w1]; [|reflexivity].
  unfold bind, pageOn, ret. cbn beta iota.
  rewrite play_with_close by apply config_script_no_close.
  destruct (play E p (config_script E url o) _) as [[[]|e] w3]; [|reflexivity].
  simpl. by rewrite same_body.
Qed.

End CloseDoesNotMatter.

(** C2: whatever the engine answers to [page.close()] during cleanup, a
    render call ends as it would have ended had the close been accepted: with
    the same value or with the same error.  The failure of a close is
    swallowed by [closePage] (which returns normally in both revisions), so
    it neither reaches the caller nor replaces the error of the call. *)
Theorem close_failure_is_swallowed (E : Engine) (f : list event -> Page -> reply)
    (url : string) (o : PageOptions) (pdfOptions : PdfOptions)
    (v : PageViewportOptions) (s : ScreenshotOptions) (page : option Page)
    (w : World) :
  (V1.html (with_close E f) url o w).1 = (V1.html E url o w).1 /\
  (V1.pdf (with_close E f) url o pdfOptions w).1 = (V1.pdf E url o pdfOptions w).1 /\
  (V1.screenshot (with_close E f) url o v s w).1 = (V1.screenshot E url o v s w).1 /\
  (V2.html (with_close E f) url o w).1 = (V2.html E url o w).1 /\
  (V2.pdf (with_close E f) url o pdfOptions w).1 = (V2.pdf E url o pdfOptions w).1 /\
  (V2.screenshot (with_close E f) url o v s w).1 = (V2.screenshot E url o v s w).1 /\
  (V1.closePage (with_close E f) page w).1 = Ok tt /\
  (V2.closePage (with_close E f) page w).1 = Ok tt.
Proof.
  repeat split.
  - apply call_v1_with_close. reflexivity.
  - apply call_v1_with_close. reflexivity.
  - apply call_v1_with_close. reflexivity.
  - apply call_v2_with_close. reflexivity.
  - apply call_v2_with_close. reflexivity.
  - apply call_v2_with_close. reflexivity.
  - apply closePage_v1_ok.
  - apply closePage_v2_ok.
Qed.

(** ** The three operations of the first revision *)

Section FirstRevisionCall.

Context {A : Type} (E : Engine) (url : string) (o : PageOptions).
Context (body : Page -> M A) (script : list step).
Hypothesis body_plays : forall p w, void (body p) w = play E p script w.

Let call : M A := let_try_finally (V1.createPage E url o) body (V1.closePage E).

Lemma call_events w :
  course_events E (config_script E url o ++ script) w (events_of call w).
Proof.
  destruct (call_follows_course E url o body script body_plays w) as [[Ht _] _].
  unfold events_of. fold call in Ht. rewrite Ht. apply course_has_events.
Qed.

Lemma call_pages w :
  close_accepted E ->
  pages (call w).2 =
  match failure (respond E (trace w) NewPage) with
  | None => pages w ++ [PageClosed]
  | Some _ => pages w
  end.
Proof.
  intros Hacc.
  destruct (call_follows_course E url o body script body_plays w) as [[_ Hp] _].
  fold call in Hp. rewrite Hp. by apply course_pages.
Qed.

Lemma call_result w :
  forget (call w).1 =
  match failure (respond E (trace w) NewPage) with
  | None =>
      (play E (next_page w) (config_script E url o ++ script)
         (pageOn (next_page w) "error" (newPage E w).2).2).1
  | Some msg => Err (EngineError msg)
  end.
Proof.
  destruct (call_follows_course E url o body script body_plays w) as [_ Hr].
  fold call in Hr. rewrite Hr. apply course_result.
Qed.

End FirstRevisionCall.

Lemma no_leak_of_pages {A} (m : M A) w :
  closes_its_page m w -> no_page_leak m w.
Proof.
  unfold closes_its_page, no_page_leak, opened_during, closed_during, closed_count.
  intros [H|H]; rewrite H.
  - lia.
  - rewrite filter_app, !length_app. simpl. lia.
Qed.

Lemma call_v1_pages_cases {A} E url o (body : Page -> M A) script w :
  (forall p w, void (body p) w = play E p script w) ->
  close_accepted E ->
  closes_its_page (let_try_finally (V1.createPage E url o) body (V1.closePage E)) w.
Proof.
  intros Hb Hacc. unfold closes_its_page.
  rewrite (call_pages E url o body script Hb w Hacc).
  destruct (failure _); auto.
Qed.

(** C1 (amended): in the first revision, when the engine does not reject
    [page.close()], every call to [html], [pdf] or [screenshot] returns, by
    whatever exit, with the page it opened closed: the page table is the
    former one, followed by one closed page if a page was opened, so that as
    many pages were closed as were opened. *)
Theorem pages_closed_unless_close_fails (E : Engine) (url : string)
    (o : PageOptions) (pdfOptions : PdfOptions) (v : PageViewportOptions)
    (s : ScreenshotOptions) (w : World) :
  close_accepted E ->
  (closes_its_page (V1.html E url o) w /\ no_page_leak (V1.html E url o) w) /\
  (closes_its_page (V1.pdf E url o pdfOptions) w /\
   no_page_leak (V1.pdf E url o pdfOptions) w) /\
  (closes_its_page (V1.screenshot E url o v s) w /\
   no_page_leak (V1.screenshot E url o v s) w).
Proof.
  intros Hacc.
  assert (Hh := call_v1_pages_cases E url o (content E) _ w (content_plays E) Hacc).
  assert (Hp := call_v1_pages_cases E url (print_by_default o) (fun p => pdfBytes E p pdfOptions)
                  _ w (fun p => pdfBytes_plays E p pdfOptions) Hacc).
  assert (Hs := call_v1_pages_cases E url o (fun p => V1.capture E p v s)
                  _ w (fun p => capture_plays E p v s) Hacc).
  repeat split; try assumption; by apply no_leak_of_pages.
Qed.

(** The theorem at the engine that accepts every call. *)
Lemma pages_closed_witness :
  close_accepted obliging /\
  no_page_leak (V1.html obliging "https://example.com" plain) idle.
Proof.
  assert (close_accepted obliging) as H by (intros t p; reflexivity).
  split; [exact H|].
  exact (proj2 (proj1 (pages_closed_unless_close_fails obliging "https://example.com"
                         plain [] {| width := 800; height := 600 |}
                         {| animationTimeout := 0; type := "png"; quality := None;
                            shot_rest := [] |} idle H))).
Defined.

(** C1 as stated fails: with an engine that rejects [page.close()], [html]
    returns the content, one page was opened and none was closed. *)
Lemma page_left_open_when_close_fails :
  (V1.html stubborn "https://example.com" plain idle).1 =
    Ok "<!DOCTYPE html><html><body>hello</body></html>" /\
  opened_during (V1.html stubborn "https://example.com" plain) idle = 1 /\
  closed_during (V1.html stubborn "https://example.com" plain) idle = 0 /\
  ~ no_page_leak (V1.html stubborn "https://example.com" plain) idle.
Proof. repeat split. vm_compute. discriminate. Qed.

(** ** Malformed headers *)

Lemma truthy_nonempty h : h <> "" -> truthy h = true.
Proof. intros H. unfold truthy. by apply negb_true_iff, String.eqb_neq. Qed.

Lemma config_script_bad_headers E url o h :
  headers o = Some h -> h <> "" -> JSON_parse E h = None ->
  exists rest, config_script E url o = Fail (SyntaxError h) :: rest.
Proof.
  intros Hh Hne Hp. unfold config_script, headers_steps.
  rewrite Hh, (truthy_nonempty h Hne), Hp. simpl. eauto.
Qed.

Lemma forget_err {A} (r : result A) e : forget r = Err e -> r = Err e.
Proof. destruct r; simpl; congruence. Qed.

Lemma call_v1_bad_headers {A} E url o h (body : Page -> M A) script w :
  (forall p w, void (body p) w = play E p script w) ->
  headers o = Some h -> h <> "" -> JSON_parse E h = None ->
  failure (respond E (trace w) NewPage) = None ->
  (let_try_finally (V1.createPage E url o) body (V1.closePage E) w).1 =
  Err (SyntaxError h).
Proof.
  intros Hb Hh Hne Hp Hnew. apply forget_err.
  rewrite (call_result E url o body script Hb w), Hnew.
  destruct (config_script_bad_headers E url o h Hh Hne Hp) as [rest ->].
  reflexivity.
Qed.

Lemma call_v2_bad_headers {A} E url o h (fn : Page -> M A) w :
  headers o = Some h -> h <> "" -> JSON_parse E h = None ->
  failure (respond E (trace w) NewPage) = None ->
  (V2.withPage E fn url o w).1 = Err (SyntaxError h).
Proof.
  intros Hh Hne Hp Hnew. unfold V2.withPage.
  rewrite let_try_finally_eval by (intros; apply closePage_v2_ok).
  rewrite createPage_v2_plays. unfold bind at 1. rewrite newPage_eval, Hnew.
  destruct (config_script_bad_headers E url o h Hh Hne Hp) as [rest ->].
  reflexivity.
Qed.

(** C4 (amended): when the headers of a render call are a non-empty string
    that is not JSON and the page could be opened, the call fails with the
    [SyntaxError] of [JSON.parse] (the [BadOptionsError] of the
    specification), in both revisions; in the first revision the page that
    was opened is closed when the call returns, provided the engine does not
    reject the close. *)
Theorem malformed_headers_fail (E : Engine) (url : string) (o : PageOptions)
    (h : string) (pdfOptions : PdfOptions) (v : PageViewportOptions)
    (s : ScreenshotOptions) (w : World) :
  headers o = Some h -> h <> "" -> JSON_parse E h = None ->
  failure (respond E (trace w) NewPage) = None ->
  BadOptionsError (SyntaxError h) /\
  ((V1.html E url o w).1 = Err (SyntaxError h) /\
   (V1.pdf E url o pdfOptions w).1 = Err (SyntaxError h) /\
   (V1.screenshot E url o v s w).1 = Err (SyntaxError h)) /\
  ((V2.html E url o w).1 = Err (SyntaxError h) /\
   (V2.pdf E url o pdfOptions w).1 = Err (SyntaxError h) /\
   (V2.screenshot E url o v s w).1 = Err (SyntaxError h)) /\
  (close_accepted E ->
   pages (V1.html E url o w).2 = pages w ++ [PageClosed] /\
   pages (V1.pdf E url o pdfOptions w).2 = pages w ++ [PageClosed] /\
   pages (V1.screenshot E url o v s w).2 = pages w ++ [PageClosed]).
Proof.
  intros Hh Hne Hp Hnew. split; [by exists h|]. split; [|split].
  - repeat split.
    + by apply (call_v1_bad_headers E url o h (content E) _ w (content_plays E)).
    + by apply (call_v1_bad_headers E url (print_by_default o) h
                  (fun p => pdfBytes E p pdfOptions) _ w
                  (fun p => pdfBytes_plays E p pdfOptions)).
    + by apply (call_v1_bad_headers E url o h (fun p => V1.capture E p v s) _ w
                  (fun p => capture_plays E p v s)).
  - repeat split.
    + by apply call_v2_bad_headers.
    + by apply (call_v2_bad_headers E url (print_by_default o) h).
    + by apply call_v2_bad_headers.
  - intros Hacc.
    pose proof (call_pages E url o (content E) _ (content_plays E) w Hacc) as H1.
    pose proof (call_pages E url (print_by_default o) (fun p => pdfBytes E p pdfOptions) _
                  (fun p => pdfBytes_plays E p pdfOptions) w Hacc) as H2.
    pose proof (call_pages E url o (fun p => V1.capture E p v s) _
                  (fun p => capture_plays E p v s) w Hacc) as H3.
    rewrite Hnew in H1, H2, H3. by repeat split.
Qed.

(** The theorem at headers that lack their closing brace. *)
Lemma malformed_headers_witness :
  (V1.html obliging "https://example.com" (with_headers "{oops") idle).1 =
    Err (SyntaxError "{oops") /\
  pages (V1.html obliging "https://example.com" (with_headers "{oops") idle).2 =
    [PageClosed].
Proof.
  assert (close_accepted obliging) as Hacc by (intros t p; reflexivity).
  assert ("{oops" <> "") as Hne by discriminate.
  pose proof (malformed_headers_fail obliging "https://example.com"
                (with_headers "{oops") "{oops" []
                {| width := 800; height := 600 |}
                {| animationTimeout := 0; type := "png"; quality := None;
                   shot_rest := [] |} idle eq_refl Hne eq_refl eq_refl) as H.
  split.
  - exact (proj1 (proj1 (proj2 H))).
  - exact (proj1 (proj2 (proj2 (proj2 H)) Hacc)).
Defined.

(** C4 as stated fails: the empty string is not JSON, yet [if (headers)]
    skips it and the call returns the content. *)
Lemma empty_headers_are_skipped :
  headers (with_headers "") = Some "" /\
  JSON_parse obliging "" = None /\
  JSON.parse "" = None /\
  (V1.html obliging "https://example.com" (with_headers "") idle).1 =
    Ok "<!DOCTYPE html><html><body>hello</body></html>" /\
  (V2.html obliging "https://example.com" (with_headers "") idle).1 =
    Ok "<!DOCTYPE html><html><body>hello</body></html>" /\
  ~ (exists e, (V1.html obliging "https://example.com" (with_headers "") idle).1 = Err e
               /\ BadOptionsError e).
Proof.
  repeat split. intros [e [H _]]. vm_compute in H. discriminate.
Qed.

(** The second revision leaves the page open when [createPage] throws: its
    [finally] sees [page] undefined. *)
Example v2_leaves_page_open_on_malformed_headers :
  (V2.html obliging "https://example.com" (with_headers "{oops") idle).1 =
    Err (SyntaxError "{oops") /\
  pages (V2.html obliging "https://example.com" (with_headers "{oops") idle).2 =
    [PageOpen].
Proof. split; reflexivity. Qed.

(** ** The calls of the scripts *)

Lemma config_calls_inv E url o p c :
  c ∈ calls_of p (config_script E url o) ->
  (exists h j, c = PageCall p (SetExtraHTTPHeaders j) /\ headers o = Some h /\
               h <> "" /\ JSON_parse E h = Some j) \/
  (exists m, c = PageCall p (EmulateMediaType m) /\ emulateMediaType o = Some m) \/
  (exists cr, c = PageCall p (Authenticate cr) /\ credentials o = Some cr) \/
  c = PageCall p (SetCacheEnabled false) \/
  c = PageCall p (Goto url (rest_options o)).
Proof.
  unfold config_script, headers_steps, media_steps, auth_steps, calls_of.
  rewrite !omap_app, !elem_of_app. intros [H|[H|[H|H]]].
  - left. destruct (headers o) as [h|]; [|by apply elem_of_nil in H].
    destruct (truthy h) eqn:Ht; [|by apply elem_of_nil in H].
    destruct (JSON_parse E h) as [j|] eqn:Hj; [|by apply elem_of_nil in H].
    apply list_elem_of_singleton in H. exists h, j. repeat split; try done.
    intros ->. discriminate.
  - right; left. destruct (emulateMediaType o) as [m|]; [|by apply elem_of_nil in H].
    apply list_elem_of_singleton in H. eauto.
  - right; right; left. destruct (credentials o) as [cr|]; [|by apply elem_of_nil in H].
    apply list_elem_of_singleton in H. eauto.
  - simpl in H. apply elem_of_cons in H as [H|H]; [tauto|].
    apply list_elem_of_singleton in H. tauto.
Qed.

Lemma config_calls_are_config E url o p c :
  c ∈ calls_of p (config_script E url o) ->
  is_config c = true /\ 2 <= stage c <= 6.
Proof.
  intros H. apply config_calls_inv in H.
  destruct H as [(h & j & -> & _)|[(m & -> & _)|[(cr & -> & _)|[->| ->]]]];
    simpl; split; (reflexivity || lia).
Qed.

Lemma config_calls_sorted E url o p :
  StronglySorted lt (map stage (calls_of p (config_script E url o))).
Proof.
  unfold config_script, headers_steps, media_steps, auth_steps.
  destruct (headers o) as [h|]; [destruct (truthy h), (JSON_parse E h)|];
    destruct (emulateMediaType o), (credentials o); simpl;
    repeat (constructor; [|repeat constructor; lia]); constructor.
Qed.

(** When the whole configuration script runs, the options are in effect. *)
Lemma config_complete E url o p t evs :
  completes E p (config_script E url o) t = true ->
  (forall c, c ∈ calls_of p (config_script E url o) -> Ev c true ∈ evs) ->
  configured E url o p evs.
Proof.
  intros Hc Hin. unfold configured.
  assert (forall c, c ∈ calls_of p (config_script E url o) -> Ev c true ∈ evs) as H by done.
  pose proof (completes_no_fail _ _ _ _ Hc) as Hnf.
  unfold config_script, headers_steps, media_steps, auth_steps, calls_of in *.
  repeat split.
  - intros h Hh Hne. rewrite Hh, (truthy_nonempty h Hne) in *.
    destruct (JSON_parse E h) as [j|].
    + exists j. split; [done|]. apply H. simpl. by left.
    + exfalso. apply (Hnf (SyntaxError h)). simpl. by left.
  - intros m Hm. apply H. rewrite Hm, !omap_app, !elem_of_app. right; left. simpl. by left.
  - intros c Hcr. apply H. rewrite Hcr, !omap_app, !elem_of_app. right; right; left.
    simpl. by left.
  - apply H. rewrite !omap_app, !elem_of_app. right; right; right. simpl. by left.
  - apply H. rewrite !omap_app, !elem_of_app. right; right; right. simpl. right. by left.
Qed.

Lemma played_elem E p script t e :
  e ∈ played E p script t -> ev_call e ∈ calls_of p script.
Proof.
  intros H. eapply elem_of_prefix; [|apply played_calls].
  apply list_elem_of_fmap. eauto.
Qed.

(** An event of the second part of a script shows that the first part ran
    to its end. *)
Lemma played_reaches E p s1 s2 t e :
  e ∈ played E p (s1 ++ s2) t -> ev_call e ∉ calls_of p s1 ->
  completes E p s1 t = true /\
  played E p (s1 ++ s2) t =
    map (fun c => Ev c true) (calls_of p s1) ++ played E p s2 (t ++ played E p s1 t).
Proof.
  rewrite played_app. intros H Hn. destruct (completes E p s1 t) eqn:Hc.
  - split; [done|]. by rewrite (played_complete _ _ _ _ Hc).
  - rewrite app_nil_r in H. apply played_elem in H. done.
Qed.

(** ** The events of a course *)

Section CourseEvents.

Context (E : Engine) (script : list step) (w : World) (evs : list event).
Hypothesis shape : course_events E script w evs.

Let p := next_page w.
Let opening := [Ev NewPage true; Ev (PageCall p (On "error")) true].

Lemma course_event_cases e :
  e ∈ evs ->
  e = Ev NewPage false \/ e ∈ opening \/
  (failure (respond E (trace w) NewPage) = None /\
   e ∈ played E p script (trace w ++ opening)) \/
  exists ok, e = Ev (PageCall p Close) ok.
Proof.
  unfold course_events in shape. destruct (failure _).
  - subst evs. intros H. apply list_elem_of_singleton in H. auto.
  - destruct shape as (closing & -> & Hcl). rewrite !elem_of_app.
    intros [H|[H|H]]; auto.
    destruct Hcl as [->|[ok ->]].
    + by apply elem_of_nil in H.
    + apply list_elem_of_singleton in H. eauto.
Qed.

Lemma course_in_order :
  StronglySorted lt (map stage (calls_of p script)) ->
  (forall c, c ∈ calls_of p script -> 2 <= stage c <= 9) ->
  in_order evs.
Proof.
  intros Hs Hb. unfold in_order, course_events in *. destruct (failure _).
  - subst evs. repeat constructor.
  - destruct shape as (closing & -> & Hcl). fold p opening.
    set (pl := played E p script (trace w ++ opening)).
    assert (forall e, e ∈ pl -> 2 <= stage (ev_call e) <= 9) as Hpl.
    { intros e He. apply Hb. by eapply played_elem. }
    assert (StronglySorted lt (map (fun e => stage (ev_call e)) pl)) as Hps.
    { destruct (played_calls E p script (trace w ++ opening)) as [k Hk].
      rewrite Hk, fmap_app in Hs. apply StronglySorted_app_1_l in Hs.
      fold pl in Hs. by rewrite <- list_fmap_compose in Hs. }
    rewrite !fmap_app. simpl.
    apply SSorted_cons; [apply SSorted_cons|].
    + apply StronglySorted_app_2; [|done|].
      * intros x1 x2 H1 H2. apply list_elem_of_fmap in H1 as (e1 & -> & H1).
        apply Hpl in H1. destruct Hcl as [->|[ok ->]]; simpl in H2.
        -- by apply elem_of_nil in H2.
        -- apply list_elem_of_singleton in H2. subst x2. simpl. lia.
      * destruct Hcl as [->|[ok ->]]; repeat constructor.
    + apply Forall_app. split.
      * apply Forall_forall. intros x Hx. apply list_elem_of_fmap in Hx as (e1 & -> & H1).
        apply Hpl in H1. lia.
      * destruct Hcl as [->|[ok ->]]; repeat constructor.
    + constructor; [lia|]. apply Forall_app. split.
      * apply Forall_forall. intros x Hx. apply list_elem_of_fmap in Hx as (e1 & -> & H1).
        apply Hpl in H1. lia.
      * destruct Hcl as [->|[ok ->]]; repeat constructor.
Qed.

Lemma course_played_included e :
  failure (respond E (trace w) NewPage) = None ->
  e ∈ played E p script (trace w ++ opening) -> e ∈ evs.
Proof.
  intros Hf. unfold course_events in shape. rewrite Hf in shape.
  destruct shape as (closing & -> & _). rewrite !elem_of_app. auto.
Qed.

End CourseEvents.

(** ** Configuration comes first, and in order *)

Lemma config_not_extraction c : is_config c = true -> is_extraction c = false.
Proof. destruct c as [| |q []| |]; simpl; congruence. Qed.

Section FirstRevisionOrder.

Context {A : Type} (E : Engine) (url : string) (o : PageOptions).
Context (body : Page -> M A) (script : list step).
Hypothesis body_plays : forall p w, void (body p) w = play E p script w.
Hypothesis script_sorted : forall p, StronglySorted lt (map stage (calls_of p script)).
Hypothesis script_extracts :
  forall p c, c ∈ calls_of p script -> is_config c = false /\ 7 <= stage c <= 9.

Let call : M A := let_try_finally (V1.createPage E url o) body (V1.closePage E).

Lemma call_success_events w :
  (exists a, (call w).1 = Ok a) ->
  forall c, c ∈ calls_of (next_page w) (config_script E url o ++ script) ->
    Ev c true ∈ events_of call w.
Proof.
  intros [a Ha] c Hc.
  pose proof (call_result E url o body script body_plays w) as Hr.
  pose proof (call_events E url o body script body_plays w) as Hs.
  fold call in Hr, Hs. rewrite Ha in Hr. simpl in Hr.
  destruct (failure (respond E (trace w) NewPage)) eqn:Hf; [discriminate|].
  symmetry in Hr. apply play_result in Hr.
  rewrite newPage_eval, Hf in Hr. simpl in Hr. rewrite <- app_assoc in Hr. simpl in Hr.
  eapply course_played_included; [exact Hs|exact Hf|].
  rewrite (played_complete _ _ _ _ Hr). apply list_elem_of_fmap. eauto.
Qed.

Lemma call_configured_in_order w :
  configured_in_order E url o w (events_of call w).
Proof.
  pose proof (call_events E url o body script body_plays w) as Hs. fold call in Hs.
  set (p := next_page w) in *.
  split; [|split].
  - eapply course_in_order; [exact Hs| |]; fold p; unfold calls_of; rewrite omap_app.
    + rewrite fmap_app. apply StronglySorted_app_2.
      * intros x1 x2 H1 H2.
        apply list_elem_of_fmap in H1 as (c1 & -> & H1).
        apply list_elem_of_fmap in H2 as (c2 & -> & H2).
        apply config_calls_are_config in H1. apply script_extracts in H2. lia.
      * apply config_calls_sorted.
      * apply script_sorted.
    + intros c Hc. apply elem_of_app in Hc as [Hc|Hc].
      * apply config_calls_are_config in Hc. lia.
      * apply script_extracts in Hc. lia.
  - intros e He Hcfg.
    destruct (course_event_cases _ _ _ _ Hs e He) as [->|[H|[[_ H]|[ok ->]]]];
      try discriminate.
    + apply elem_of_cons in H as [->|H]; [discriminate|].
      apply list_elem_of_singleton in H. subst e. discriminate.
    + apply played_elem in H. fold p in H. unfold calls_of in H.
      rewrite omap_app in H. apply elem_of_app in H as [H|H]; [exact H|].
      apply script_extracts in H. destruct H as [H _]. congruence.
  - intros e He Hex.
    destruct (course_event_cases _ _ _ _ Hs e He) as [->|[H|[[Hf H]|[ok ->]]]];
      try discriminate.
    + apply elem_of_cons in H as [->|H]; [discriminate|].
      apply list_elem_of_singleton in H. subst e. discriminate.
    + fold p in H. destruct (played_reaches _ _ _ _ _ _ H) as [Hc Hpl].
      { intros Hin. apply config_calls_are_config in Hin as [Hin _].
        apply config_not_extraction in Hin. congruence. }
      eapply config_complete; [exact Hc|].
      intros c Hin. eapply course_played_included; [exact Hs|exact Hf|].
      fold p. rewrite Hpl. apply elem_of_app. left.
      apply list_elem_of_fmap. eauto.
Qed.

End FirstRevisionOrder.

Lemma content_script_sorted p : StronglySorted lt (map stage (calls_of p [Do Content])).
Proof. repeat constructor. Qed.

Lemma content_script_extracts p c :
  c ∈ calls_of p [Do Content] -> is_config c = false /\ 7 <= stage c <= 9.
Proof. intros H. apply list_elem_of_singleton in H. subst c. simpl. split; [done|lia]. Qed.

Lemma pdf_script_sorted options p :
  StronglySorted lt (map stage (calls_of p [Do (Pdf options)])).
Proof. repeat constructor. Qed.

Lemma pdf_script_extracts options p c :
  c ∈ calls_of p [Do (Pdf options)] -> is_config c = false /\ 7 <= stage c <= 9.
Proof. intros H. apply list_elem_of_singleton in H. subst c. simpl. split; [done|lia]. Qed.

Lemma capture_script_sorted v s p :
  StronglySorted lt (map stage (calls_of p (capture_script v s))).
Proof.
  unfold capture_script. destruct (0 <? animationTimeout s)%Z; simpl;
    repeat (constructor; [|repeat constructor; lia]); constructor.
Qed.

Lemma capture_script_extracts v s p c :
  c ∈ calls_of p (capture_script v s) -> is_config c = false /\ 7 <= stage c <= 9.
Proof.
  unfold capture_script. destruct (0 <? animationTimeout s)%Z; simpl; intros H;
    repeat (apply elem_of_cons in H as [->|H]; [simpl; split; [done|lia]|]);
    by apply elem_of_nil in H.
Qed.

(** The calls on the page of a render call of the first revision come in
    the order of the stages, each at most once; the configuration calls are
    those the options ask for; and when an extraction call is made, the
    configuration the options ask for has returned normally. *)
Lemma calls_configured_in_order (E : Engine) (url : string)
    (o : PageOptions) (pdfOptions : PdfOptions) (v : PageViewportOptions)
    (s : ScreenshotOptions) (w : World) :
  configured_in_order E url o w (events_of (V1.html E url o) w) /\
  configured_in_order E url (print_by_default o) w
    (events_of (V1.pdf E url o pdfOptions) w) /\
  configured_in_order E url o w (events_of (V1.screenshot E url o v s) w).
Proof.
  split; [|split].
  - apply (call_configured_in_order E url o (content E) [Do Content]
             (content_plays E) content_script_sorted content_script_extracts).
  - apply (call_configured_in_order E url (print_by_default o)
             (fun p => pdfBytes E p pdfOptions) [Do (Pdf pdfOptions)]
             (fun p => pdfBytes_plays E p pdfOptions)
             (pdf_script_sorted pdfOptions) (pdf_script_extracts pdfOptions)).
  - apply (call_configured_in_order E url o (fun p => V1.capture E p v s)
             (capture_script v s) (fun p => capture_plays E p v s)
             (capture_script_sorted v s) (capture_script_extracts v s)).
Qed.

(** ** The media type of a PDF *)

(** A media type that a [pdf] call gives the page is the caller's, or
    [print] when the caller set none, and it has been applied whenever the
    PDF is asked of the engine and whenever the call returns a buffer. *)
Lemma pdf_media_events (E : Engine) (url : string) (o : PageOptions)
    (pdfOptions : PdfOptions) (w : World) :
  let evs := events_of (V1.pdf E url o pdfOptions) w in
  let effective :=
    match emulateMediaType o with
    | None => print
    | Some m => m
    end in
  emulateMediaType (print_by_default o) = Some effective /\
  (forall q m ok, Ev (PageCall q (EmulateMediaType m)) ok ∈ evs -> m = effective) /\
  (forall q options ok, Ev (PageCall q (Pdf options)) ok ∈ evs ->
     Ev (PageCall (next_page w) (EmulateMediaType effective)) true ∈ evs) /\
  ((exists buffer, (V1.pdf E url o pdfOptions w).1 = Ok buffer) ->
     Ev (PageCall (next_page w) (EmulateMediaType effective)) true ∈ evs).
Proof.
  intros evs effective.
  assert (emulateMediaType (print_by_default o) = Some effective) as Heff.
  { unfold effective. simpl. by destruct (emulateMediaType o). }
  pose proof (call_configured_in_order E url (print_by_default o)
                (fun p => pdfBytes E p pdfOptions) [Do (Pdf pdfOptions)]
                (fun p => pdfBytes_plays E p pdfOptions)
                (pdf_script_sorted pdfOptions) (pdf_script_extracts pdfOptions) w)
    as (_ & Hplan & Hconf).
  fold (V1.pdf E url o pdfOptions) in Hplan, Hconf. fold evs in Hplan, Hconf.
  split; [exact Heff|]. split; [|split].
  - intros q m ok Hin. specialize (Hplan _ Hin eq_refl). simpl in Hplan.
    apply config_calls_inv in Hplan.
    destruct Hplan as [(h & j & H & _)|[(m' & H & Hm)|[(cr & H & _)|[H|H]]]];
      try discriminate.
    injection H as _ Hmm. congruence.
  - intros q options ok Hin. destruct (Hconf _ Hin eq_refl) as (_ & Hm & _).
    by apply Hm.
  - intros Hok.
    pose proof (call_success_events E url (print_by_default o)
                  (fun p => pdfBytes E p pdfOptions) [Do (Pdf pdfOptions)]
                  (fun p => pdfBytes_plays E p pdfOptions) w Hok
                  (PageCall (next_page w) (Pdf pdfOptions))) as Hpdf.
    fold (V1.pdf E url o pdfOptions) in Hpdf. fold evs in Hpdf.
    destruct (Hconf _ (Hpdf ltac:(unfold calls_of; rewrite omap_app, elem_of_app;
                                   right; simpl; by left)) eq_refl) as (_ & Hm & _).
    by apply Hm.
Qed.

(** ** The screenshot *)

Lemma played_capture_cases E p v s t :
  let sv := PageCall p (SetViewport v) in
  let wa := PageCall p (WaitForAnimations s (animationTimeout s)) in
  let sh := PageCall p (Screenshot (capture_options s)) in
  played E p (capture_script v s) t = [Ev sv false] \/
  ((0 < animationTimeout s)%Z /\
   (played E p (capture_script v s) t = [Ev sv true; Ev wa false] \/
    exists ok, played E p (capture_script v s) t = [Ev sv true; Ev wa true; Ev sh ok])) \/
  ((animationTimeout s <= 0)%Z /\
   exists ok, played E p (capture_script v s) t = [Ev sv true; Ev sh ok]).
Proof.
  intros sv wa sh. unfold capture_script.
  destruct (0 <? animationTimeout s)%Z eqn:Hpos;
    [apply Z.ltb_lt in Hpos|apply Z.ltb_ge in Hpos]; simpl; unfold answered;
    repeat (destruct (failure _); simpl); eauto 10.
Qed.

Section Screenshot.

Context (E : Engine) (url : string) (o : PageOptions).
Context (v : PageViewportOptions) (s : ScreenshotOptions) (w : World).

Let p := next_page w.
Let evs := events_of (V1.screenshot E url o v s) w.
Let sv := PageCall p (SetViewport v).
Let wa := PageCall p (WaitForAnimations s (animationTimeout s)).
Let sh := PageCall p (Screenshot (capture_options s)).

(** Either no extraction call was made, or the events are those of the
    capture script between events that are no extraction calls. *)
Lemma screenshot_shape :
  (forall e, e ∈ evs -> is_extraction (ev_call e) = false) \/
  exists pre t closing,
    evs = pre ++ played E p (capture_script v s) t ++ closing /\
    (forall e, e ∈ pre -> is_extraction (ev_call e) = false) /\
    (forall e, e ∈ closing -> is_extraction (ev_call e) = false).
Proof.
  pose proof (call_events E url o (fun p => V1.capture E p v s) (capture_script v s)
                (fun p => capture_plays E p v s) w) as Hs.
  fold (V1.screenshot E url o v s) in Hs. fold evs in Hs.
  unfold course_events in Hs. destruct (failure _).
  - left. intros e He. rewrite Hs in He. apply list_elem_of_singleton in He. by subst e.
  - destruct Hs as (closing & Hev & Hcl). fold p in Hev.
    assert (forall e, e ∈ closing -> is_extraction (ev_call e) = false) as Hclosing.
    { intros e He. destruct Hcl as [->|[ok ->]]; [by apply elem_of_nil in He|].
      apply list_elem_of_singleton in He. by subst e. }
    rewrite played_app in Hev.
    assert (forall e t, e ∈ played E p (config_script E url o) t ->
                        is_extraction (ev_call e) = false) as Hcfg.
    { intros e t He. apply played_elem, config_calls_are_config in He as [He _].
      by apply config_not_extraction. }
    destruct (completes E p (config_script E url o) _).
    + right.
      match type of Hev with
      | _ = ?op ++ (?a ++ played _ _ _ ?t) ++ _ => exists (op ++ a), t, closing
      end.
      split; [|split; [|exact Hclosing]].
      * rewrite Hev, <- !app_assoc. reflexivity.
      * intros e He. apply elem_of_app in He as [He|He]; [|by eapply Hcfg].
        apply elem_of_cons in He as [->|He]; [done|].
        apply list_elem_of_singleton in He. by subst e.
    + left. intros e He. rewrite Hev, app_nil_r, !elem_of_app in He.
      destruct He as [He|[He|He]]; [|by eapply Hcfg|by apply Hclosing].
      apply elem_of_cons in He as [->|He]; [done|].
      apply list_elem_of_singleton in He. by subst e.
Qed.

End Screenshot.

Ltac in_list H :=
  repeat (apply elem_of_cons in H as [H|H]; [try (subst; discriminate)|]);
  try (by apply elem_of_nil in H).

(** An extraction event of a screenshot call is one of the capture script. *)
Lemma screenshot_extraction_event E url o v s w e :
  e ∈ events_of (V1.screenshot E url o v s) w ->
  is_extraction (ev_call e) = true ->
  exists pre t closing,
    events_of (V1.screenshot E url o v s) w =
      pre ++ played E (next_page w) (capture_script v s) t ++ closing /\
    e ∈ played E (next_page w) (capture_script v s) t.
Proof.
  intros He Hex. destruct (screenshot_shape E url o v s w) as [H|(pre & t & cl & Hev & Hp & Hc)].
  - rewrite (H e He) in Hex. discriminate.
  - exists pre, t, cl. split; [exact Hev|].
    rewrite Hev, !elem_of_app in He. destruct He as [He|[He|He]]; [|exact He|].
    + rewrite (Hp e He) in Hex. discriminate.
    + rewrite (Hc e He) in Hex. discriminate.
Qed.

(** The settler is called only when [animationTimeout] is positive, and
    it is called when the timeout is positive and the viewport has been set;
    a capture comes right after the viewport call has returned when the
    timeout is not positive, and right after the settler has returned when
    it is. *)
Lemma settler_events (E : Engine) (url : string) (o : PageOptions)
    (v : PageViewportOptions) (s : ScreenshotOptions) (w : World) :
  let p := next_page w in
  let evs := events_of (V1.screenshot E url o v s) w in
  let t := animationTimeout s in
  let viewport_set := Ev (PageCall p (SetViewport v)) true in
  let settled := Ev (PageCall p (WaitForAnimations s t)) true in
  (forall q s' t' ok, Ev (PageCall q (WaitForAnimations s' t')) ok ∈ evs ->
     (0 < t)%Z /\ q = p /\ s' = s /\ t' = t) /\
  ((0 < t)%Z -> viewport_set ∈ evs ->
     exists ok, Ev (PageCall p (WaitForAnimations s t)) ok ∈ evs) /\
  ((t <= 0)%Z -> forall q c ok, Ev (PageCall q (Screenshot c)) ok ∈ evs ->
     just_before viewport_set (Ev (PageCall q (Screenshot c)) ok) evs) /\
  ((0 < t)%Z -> forall q c ok, Ev (PageCall q (Screenshot c)) ok ∈ evs ->
     just_before settled (Ev (PageCall q (Screenshot c)) ok) evs).
Proof.
  intros p evs t viewport_set settled. split; [|split; [|split]].
  - intros q s' t' ok H.
    destruct (screenshot_extraction_event E url o v s w _ H eq_refl)
      as (pre & t0 & cl & _ & He).
    destruct (played_capture_cases E p v s t0) as [Hp|[[Hpos [Hp|[ok' Hp]]]|[Hle [ok' Hp]]]];
      fold p in He; rewrite Hp in He; in_list He;
      injection He as -> -> -> _; done.
  - intros Hpos Hin.
    destruct (screenshot_extraction_event E url o v s w _ Hin eq_refl)
      as (pre & t0 & cl & Hev & He).
    fold evs in Hev. fold p in Hev, He.
    destruct (played_capture_cases E p v s t0) as [Hp|[[_ [Hp|[ok' Hp]]]|[Hle [ok' Hp]]]];
      rewrite Hp in He, Hev.
    + in_list He.
    + exists false. rewrite Hev, !elem_of_app. right; left. right. by left.
    + exists true. rewrite Hev, !elem_of_app. right; left. right. by left.
    + unfold t in Hpos. lia.
  - intros Hle q c ok Hin.
    destruct (screenshot_extraction_event E url o v s w _ Hin eq_refl)
      as (pre & t0 & cl & Hev & He).
    fold evs in Hev. fold p in Hev, He.
    destruct (played_capture_cases E p v s t0) as [Hp|[[Hpos _]|[_ [ok' Hp]]]].
    + rewrite Hp in He. in_list He.
    + unfold t in Hle. lia.
    + rewrite Hp in He, Hev. in_list He. rewrite He.
      exists pre, cl. exact Hev.
  - intros Hpos q c ok Hin.
    destruct (screenshot_extraction_event E url o v s w _ Hin eq_refl)
      as (pre & t0 & cl & Hev & He).
    fold evs in Hev. fold p in Hev, He.
    destruct (played_capture_cases E p v s t0) as [Hp|[[_ [Hp|[ok' Hp]]]|[Hle _]]].
    + rewrite Hp in He. in_list He.
    + rewrite Hp in He. in_list He.
    + rewrite Hp in He, Hev. in_list He. rewrite He.
      exists (pre ++ [Ev (PageCall p (SetViewport v)) true]), cl.
      rewrite Hev, <- !app_assoc. reflexivity.
    + unfold t in Hpos. lia.
Qed.

(** The options of a capture that the engine receives carry the caller's
    format, no quality when the format is [png] and the caller's quality
    otherwise; a call that returns an image has made such a capture. *)
Lemma capture_events (E : Engine) (url : string) (o : PageOptions)
    (v : PageViewportOptions) (s : ScreenshotOptions) (w : World) :
  let evs := events_of (V1.screenshot E url o v s) w in
  (forall q c ok, Ev (PageCall q (Screenshot c)) ok ∈ evs ->
     c = capture_options s /\
     cap_type c = type s /\
     (lossless (type s) = true -> cap_quality c = None) /\
     (lossless (type s) = false -> cap_quality c = quality s)) /\
  ((exists shot, (V1.screenshot E url o v s w).1 = Ok shot) ->
     Ev (PageCall (next_page w) (Screenshot (capture_options s))) true ∈ evs).
Proof.
  intros evs. split.
  - intros q c ok Hin.
    destruct (screenshot_extraction_event E url o v s w _ Hin eq_refl)
      as (pre & t0 & cl & _ & He).
    assert (c = capture_options s) as ->.
    { destruct (played_capture_cases E (next_page w) v s t0)
        as [Hp|[[_ [Hp|[ok' Hp]]]|[_ [ok' Hp]]]];
        rewrite Hp in He; in_list He; congruence. }
    unfold capture_options, lossless. simpl.
    repeat split; intros ->; reflexivity.
  - intros Hok.
    apply (call_success_events E url o (fun p => V1.capture E p v s) (capture_script v s)
             (fun p => capture_plays E p v s) w Hok).
    unfold calls_of, capture_script. rewrite omap_app, elem_of_app. right.
    destruct (0 <? animationTimeout s)%Z; simpl; rewrite !elem_of_cons; auto.
Qed.

(** ** Shutdown *)

Lemma remove_tree_gone dir fs : dir ∉ remove_tree dir fs.
Proof. unfold remove_tree. rewrite elem_of_filter. intros [[H _] _]. done. Qed.

Lemma engineCall_eval E c effect w :
  engineCall E c effect w =
  match failure (respond E (trace w) c) with
  | None => (Ok tt, effect (set_trace (fun t => t ++ [Ev c true]) w))
  | Some msg => (Err (EngineError msg), set_trace (fun t => t ++ [Ev c false]) w)
  end.
Proof. unfold engineCall, outcome, answered. destruct (failure _); reflexivity. Qed.


(** ** Launch *)

Lemma push_eval a x xs w :
  arrays (heap w) !! a = Some xs ->
  push a x w =
  (Ok tt, set_heap (fun h => {| objects := objects h;
                                arrays := <[a := xs ++ [x]]> (arrays h) |}) w).
Proof. intros H. unfold push. by rewrite H. Qed.

(** The five pushes of [create] on an array that holds [xs]. *)
Lemma push_flags_eval a xs w :
  arrays (heap w) !! a = Some xs ->
  (push a "--no-sandbox" ;;
   push a "--disable-web-security" ;;
   push a "--disable-dev-shm-usage" ;;
   push a "--disk-cache-size=0" ;;
   push a "--aggressive-cache-discard") w =
  (Ok tt, set_heap (fun h => {| objects := objects h;
                                arrays := <[a := xs ++ fixed_flags]> (arrays h) |}) w).
Proof.
  intros H. unfold bind.
  rewrite (push_eval a _ xs) by done. cbn beta iota.
  rewrite (push_eval a _ (xs ++ ["--no-sandbox"])) by (simpl; apply lookup_insert_eq).
  cbn beta iota.
  rewrite (push_eval a _ ((xs ++ ["--no-sandbox"]) ++ ["--disable-web-security"]))
    by (simpl; apply lookup_insert_eq).
  cbn beta iota.
  rewrite (push_eval a _ (((xs ++ ["--no-sandbox"]) ++ ["--disable-web-security"])
                          ++ ["--disable-dev-shm-usage"]))
    by (simpl; apply lookup_insert_eq).
  cbn beta iota.
  rewrite (push_eval a _ ((((xs ++ ["--no-sandbox"]) ++ ["--disable-web-security"])
                           ++ ["--disable-dev-shm-usage"]) ++ ["--disk-cache-size=0"]))
    by (simpl; apply lookup_insert_eq).
  unfold set_heap. simpl. rewrite !insert_insert_eq, <- !app_assoc. reflexivity.
Qed.

Lemma launch_eval E options mode xs w :
  args_of w options = Some xs ->
  launch E options mode w = engineCall E (Launch xs mode) (set_browserRunning true) w.
Proof.
  unfold args_of, launch, bind, get_args, elements_of, ret.
  destruct (objects (heap w) !! options) as [o|]; [|discriminate].
  destruct (args o) as [a|].
  - intros ->. reflexivity.
  - intros [= <-]. reflexivity.
Qed.

Lemma flags_added_args mode w options w1 old :
  args_of w options = Some old ->
  flags_added mode w options w1 ->
  args_of w1 options = Some (old ++ fixed_flags).
Proof.
  unfold args_of, flags_added. intros Ha (_ & _ & _ & H).
  destruct (objects (heap w) !! options) as [o|] eqn:Ho; [|done].
  destruct (args o) as [a|] eqn:Hargs.
  - destruct H as (old' & Hold & H). rewrite Ha in Hold. injection Hold as <-.
    destruct (String.eqb mode "new").
    + rewrite H. simpl. rewrite Ho, Hargs. apply lookup_insert_eq.
    + destruct H as (a' & _ & ->). simpl. rewrite lookup_insert_eq. simpl.
      apply lookup_insert_eq.
  - injection Ha as <-. destruct H as (a' & _ & ->). simpl.
    rewrite lookup_insert_eq. simpl. apply lookup_insert_eq.
Qed.

Lemma create_v1_eval E options old w :
  args_of w options = Some old ->
  exists w1, flags_added "new" w options w1 /\
    V1.create E (Some options) w =
    (launch E options "new" ;;
     spawn <- chromeSpawnArgs E ;;
     console_log (LogInitialized options) ;;
     ret {| V1.browser := TheBrowser;
            V1.chromeTmpDataDir := scan_user_data_dir spawn |}) w1.
Proof.
  unfold args_of, V1.create, flags_added. intros Ha.
  destruct (objects (heap w) !! options) as [o|] eqn:Ho; [|done].
  unfold bind at 1. unfold ret at 1. cbn beta iota.
  unfold bind at 1. unfold get_args at 1. rewrite Ho.
  destruct (args o) as [a|] eqn:Hargs.
  - unfold bind at 1. unfold ret at 1. cbn beta iota.
    unfold bind at 1. unfold get_args at 1. rewrite Ho, Hargs.
    unfold bind at 1. rewrite (push_flags_eval a old w Ha).
    eexists. split; [|reflexivity]. simpl. repeat split. eauto.
  - injection Ha as <-.
    unfold bind at 1. unfold bind at 1. unfold new_array at 1. cbn beta iota zeta.
    set (a' := fresh (dom (arrays (heap w)))).
    assert (a' ∉ dom (arrays (heap w))) as Hfresh by apply is_fresh.
    unfold set_args at 1. cbn [heap set_heap objects]. rewrite Ho.
    unfold bind at 1. unfold get_args at 1. cbn [heap set_heap objects].
    rewrite lookup_insert_eq. cbn [args].
    unfold bind at 1.
    erewrite (push_flags_eval a' []) by (simpl; apply lookup_insert_eq).
    eexists. split; [|reflexivity]. simpl. repeat split.
    exists a'. split; [exact Hfresh|]. rewrite insert_insert_eq. reflexivity.
Qed.

Lemma create_v2_eval E options old w :
  args_of w options = Some old ->
  exists w1, flags_added "shell" w options w1 /\
    V2.create E (Some options) w =
    (launch E options "shell" ;;
     console_log (LogInitialized options) ;;
     ret {| V2.browser := TheBrowser |}) w1.
Proof.
  unfold args_of, V2.create, flags_added. intros Ha.
  destruct (objects (heap w) !! options) as [o|] eqn:Ho; [|done].
  unfold bind at 1. unfold ret at 1. cbn beta iota.
  unfold bind at 1. unfold get_args at 1. rewrite Ho.
  unfold bind at 1.
  assert ((match args o with Some a => elements_of a | None => ret [] end) w = (Ok old, w))
    as ->.
  { unfold elements_of, ret. destruct (args o); [by rewrite Ha|by injection Ha as <-]. }
  unfold bind at 1. unfold new_array at 1. cbn beta iota zeta.
  set (a' := fresh (dom (arrays (heap w)))).
  assert (a' ∉ dom (arrays (heap w))) as Hfresh by apply is_fresh.
  unfold bind at 1. unfold set_args at 1. cbn [heap set_heap objects]. rewrite Ho.
  eexists. split; [|reflexivity]. simpl. repeat split.
  destruct (args o) as [a|].
  - exists old. split; [done|]. exists a'. by split.
  - injection Ha as <-. exists a'. by split.
Qed.

Lemma create_rest_v1 E options xs w1 :
  args_of w1 options = Some xs ->
  let m := (launch E options "new" ;;
            spawn <- chromeSpawnArgs E ;;
            console_log (LogInitialized options) ;;
            ret {| V1.browser := TheBrowser;
                   V1.chromeTmpDataDir := scan_user_data_dir spawn |}) in
  heap (m w1).2 = heap w1 /\
  exists ok, trace (m w1).2 = trace w1 ++ [Ev (Launch xs "new") ok].
Proof.
  intros Ha m. unfold m, bind. rewrite (launch_eval E options "new" xs w1 Ha).
  rewrite engineCall_eval. destruct (failure _); simpl; eauto.
Qed.

Lemma create_rest_v2 E options xs w1 :
  args_of w1 options = Some xs ->
  let m := (launch E options "shell" ;;
            console_log (LogInitialized options) ;;
            ret {| V2.browser := TheBrowser |}) in
  heap (m w1).2 = heap w1 /\
  exists ok, trace (m w1).2 = trace w1 ++ [Ev (Launch xs "shell") ok].
Proof.
  intros Ha m. unfold m, bind. rewrite (launch_eval E options "shell" xs w1 Ha).
  rewrite engineCall_eval. destruct (failure _); simpl; eauto.
Qed.

Lemma create_v1_launches E options old w :
  args_of w options = Some old ->
  flags_added "new" w options (set_heap (fun _ => heap (V1.create E (Some options) w).2) w) /\
  exists ok, events_of (V1.create E (Some options)) w =
             [Ev (Launch (old ++ fixed_flags) "new") ok].
Proof.
  intros Ha. destruct (create_v1_eval E options old w Ha) as (w1 & Hf & Heq).
  pose proof (flags_added_args _ _ _ _ _ Ha Hf) as Ha1.
  destruct (create_rest_v1 E options _ w1 Ha1) as (Hh & ok & Ht). cbv zeta in Hh, Ht.
  unfold events_of. rewrite Heq, Hh, Ht. split.
  - destruct Hf as (H1 & H2 & H3 & H4). repeat split. exact H4.
  - exists ok. destruct Hf as (-> & _). apply drop_app_length.
Qed.

Lemma create_v2_launches E options old w :
  args_of w options = Some old ->
  flags_added "shell" w options (set_heap (fun _ => heap (V2.create E (Some options) w).2) w) /\
  exists ok, events_of (V2.create E (Some options)) w =
             [Ev (Launch (old ++ fixed_flags) "shell") ok].
Proof.
  intros Ha. destruct (create_v2_eval E options old w Ha) as (w1 & Hf & Heq).
  pose proof (flags_added_args _ _ _ _ _ Ha Hf) as Ha1.
  destruct (create_rest_v2 E options _ w1 Ha1) as (Hh & ok & Ht). cbv zeta in Hh, Ht.
  unfold events_of. rewrite Heq, Hh, Ht. split.
  - destruct Hf as (H1 & H2 & H3 & H4). repeat split. exact H4.
  - exists ok. destruct Hf as (-> & _). apply drop_app_length.
Qed.

(** A call without argument works on a fresh, empty options object. *)
Lemma create_v1_default E w :
  exists o w0, args_of w0 o = Some [] /\ trace w0 = trace w /\
    V1.create E None w = V1.create E (Some o) w0.
Proof.
  eexists (fresh (dom (objects (heap w)))), _.
  split; [|split; [|reflexivity]].
  - unfold args_of. simpl. by rewrite lookup_insert_eq.
  - reflexivity.
Qed.

Lemma create_v2_default E w :
  exists o w0, args_of w0 o = Some [] /\ trace w0 = trace w /\
    V2.create E None w = V2.create E (Some o) w0.
Proof.
  eexists (fresh (dom (objects (heap w)))), _.
  split; [|split; [|reflexivity]].
  - unfold args_of. simpl. by rewrite lookup_insert_eq.
  - reflexivity.
Qed.

(** C8: whatever options [create] is given, the engine is launched with the
    caller's arguments followed by the five fixed flags, in both revisions;
    a call without options launches it with the five flags alone. *)
Theorem launch_args_end_with_fixed_flags (E : Engine) (options : loc)
    (old : list string) (w : World) :
  args_of w options = Some old ->
  let five := ["--no-sandbox"; "--disable-web-security"; "--disable-dev-shm-usage";
               "--disk-cache-size=0"; "--aggressive-cache-discard"] in
  (exists ok, events_of (V1.create E (Some options)) w =
              [Ev (Launch (old ++ five) "new") ok]) /\
  (exists ok, events_of (V2.create E (Some options)) w =
              [Ev (Launch (old ++ five) "shell") ok]) /\
  (exists ok, events_of (V1.create E None) w = [Ev (Launch five "new") ok]) /\
  (exists ok, events_of (V2.create E None) w = [Ev (Launch five "shell") ok]).
Proof.
  intros Ha five. repeat split.
  - apply (create_v1_launches E options old w Ha).
  - apply (create_v2_launches E options old w Ha).
  - destruct (create_v1_default E w) as (o & w0 & Ha0 & Ht & Heq).
    destruct (create_v1_launches E o [] w0 Ha0) as (_ & ok & Hev).
    exists ok. unfold events_of in *. rewrite Heq, <- Ht. exact Hev.
  - destruct (create_v2_default E w) as (o & w0 & Ha0 & Ht & Heq).
    destruct (create_v2_launches E o [] w0 Ha0) as (_ & ok & Hev).
    exists ok. unfold events_of in *. rewrite Heq, <- Ht. exact Hev.
Qed.

(** The theorem for a caller that passes one argument of its own. *)
Lemma launch_args_witness :
  exists ok, events_of (V1.create obliging (Some 0)) with_caller_options =
    [Ev (Launch ["--window-size=800,600"; "--no-sandbox"; "--disable-web-security";
                 "--disable-dev-shm-usage"; "--disk-cache-size=0";
                 "--aggressive-cache-discard"] "new") ok].
Proof.
  exact (proj1 (launch_args_end_with_fixed_flags obliging 0 ["--window-size=800,600"]
                  with_caller_options eq_refl)).
Defined.

Lemma args_of_heap w w' options : heap w = heap w' -> args_of w options = args_of w' options.
Proof. unfold args_of. by intros ->. Qed.

(** C10: [create] of the first revision changes the options object of its
    caller, whether the launch succeeds or not: read through the caller's
    reference, [options.args] holds afterwards the former elements followed
    by the five flags, so the heap is not what it was.  When the caller had
    an [args] array, it is that very array that has grown and the object
    still refers to it; when [args] was absent, the object now refers to a
    new array that holds the five flags. *)
Theorem create_mutates_caller_options (E : Engine) (options : loc)
    (old : list string) (w : World) :
  args_of w options = Some old ->
  let w' := (V1.create E (Some options) w).2 in
  args_of w' options = Some (old ++ fixed_flags) /\
  heap w' <> heap w /\
  (forall o a, objects (heap w) !! options = Some o -> args o = Some a ->
     objects (heap w') !! options = Some o /\
     arrays (heap w') !! a = Some (old ++ fixed_flags)) /\
  (forall o, objects (heap w) !! options = Some o -> args o = None ->
     exists a, (a ∉ dom (arrays (heap w))) /\
       objects (heap w') !! options = Some {| args := Some a; headless := headless o |} /\
       arrays (heap w') !! a = Some fixed_flags).
Proof.
  intros Ha w'. destruct (create_v1_launches E options old w Ha) as (Hf & _).
  fold w' in Hf.
  assert (args_of w' options = Some (old ++ fixed_flags)) as Hnew.
  { rewrite <- (flags_added_args _ _ _ _ _ Ha Hf). by apply args_of_heap. }
  split; [exact Hnew|]. split; [|split].
  - intros Heq. rewrite (args_of_heap _ _ options Heq), Ha in Hnew.
    injection Hnew as Hnew. apply (f_equal length) in Hnew.
    rewrite length_app in Hnew. simpl in Hnew. lia.
  - intros o a Ho Hargs. destruct Hf as (_ & _ & _ & Hf). rewrite Ho, Hargs in Hf.
    destruct Hf as (old' & Hold & Hh). simpl in Hh. rewrite Hh. simpl.
    unfold args_of in Ha. rewrite Ho, Hargs, Hold in Ha. injection Ha as ->.
    split; [exact Ho|apply lookup_insert_eq].
  - intros o Ho Hargs. destruct Hf as (_ & _ & _ & Hf). rewrite Ho, Hargs in Hf.
    destruct Hf as (a & Hfresh & Hh). simpl in Hh. exists a. rewrite Hh. simpl.
    split; [exact Hfresh|]. split; apply lookup_insert_eq.
Qed.

(** The theorem for a caller that passes one argument of its own. *)
Lemma create_mutates_witness :
  args_of (V1.create obliging (Some 0) with_caller_options).2 0 =
  Some (["--window-size=800,600"] ++ fixed_flags).
Proof.
  exact (proj1 (create_mutates_caller_options obliging 0 ["--window-size=800,600"]
                  with_caller_options eq_refl)).
Defined.

(** ** The directory that [create] records *)

Lemma string_prefix_app p d : String.prefix p (p +:+ d) = true.
Proof.
  induction p as [|a p IH]; simpl.
  - by destruct d.
  - destruct (ascii_dec a a); [exact IH|done].
Qed.

Lemma string_length_app p d :
  String.length (p +:+ d) = String.length p + String.length d.
Proof. induction p as [|a p IH]; simpl; [done|by rewrite IH]. Qed.

Lemma string_substring_all d : String.substring 0 (String.length d) d = d.
Proof. induction d as [|a d IH]; simpl; [done|by rewrite IH]. Qed.

Lemma string_substring_app p d :
  String.substring (String.length p) (String.length d) (p +:+ d) = d.
Proof. induction p as [|a p IH]; simpl; [apply string_substring_all|exact IH]. Qed.

Lemma replace_first_unfold pat s :
  replace_first pat s =
  if String.prefix pat s
  then String.substring (String.length pat) (String.length s - String.length pat) s
  else match s with
       | EmptyString => EmptyString
       | String c r => String c (replace_first pat r)
       end.
Proof. destruct s; reflexivity. Qed.

(** Removing the first occurrence of a pattern from a string that starts
    with it leaves what follows the pattern. *)
Lemma replace_first_prefix pat d : replace_first pat (pat +:+ d) = d.
Proof.
  rewrite replace_first_unfold, string_prefix_app, string_length_app.
  replace (String.length pat + String.length d - String.length pat)
    with (String.length d) by lia.
  apply string_substring_app.
Qed.

(** X1: the loop of [create] over the spawn arguments yields what follows
    [--user-data-dir=] in the first argument that starts with it, whatever
    comes after that argument. *)
Theorem scan_finds_first_user_data_dir (before after : list string) (dir : string) :
  Forall (fun arg => String.prefix "--user-data-dir=" arg = false) before ->
  scan_user_data_dir (before ++ ("--user-data-dir=" +:+ dir) :: after) = Some dir.
Proof.
  induction 1 as [|arg before Harg _ IH]; cbn [app scan_user_data_dir].
  - rewrite string_prefix_app. f_equal. apply replace_first_prefix.
  - rewrite Harg. exact IH.
Qed.

(** The theorem on arguments like those of a headless Chromium. *)
Lemma scan_finds_first_witness :
  scan_user_data_dir
    (["/usr/bin/chromium"; "--headless=new"] ++
     ("--user-data-dir=" +:+ "/tmp/profile-1") :: ["--user-data-dir=/tmp/profile-2"])
  = Some "/tmp/profile-1".
Proof.
  apply (scan_finds_first_user_data_dir ["/usr/bin/chromium"; "--headless=new"]
           ["--user-data-dir=/tmp/profile-2"] "/tmp/profile-1").
  repeat constructor.
Defined.

(** X2: the loop records nothing exactly when no spawn argument starts with
    [--user-data-dir=]. *)
Theorem scan_finds_nothing_iff (spawn : list string) :
  scan_user_data_dir spawn = None <->
  Forall (fun arg => String.prefix "--user-data-dir=" arg = false) spawn.
Proof.
  induction spawn as [|arg rest IH]; cbn [scan_user_data_dir].
  - split; [constructor|done].
  - destruct (String.prefix "--user-data-dir=" arg) eqn:Hp.
    + split; [discriminate|]. intros H. apply Forall_cons in H as [H _]. congruence.
    + rewrite IH. split; [by constructor|]. intros H. by apply Forall_cons in H as [_ H].
Qed.

(** ** What [create] returns *)

(** [create] has touched nothing but the heap when it calls [launch]. *)
Lemma create_v1_eval_heap E options old w :
  args_of w options = Some old ->
  exists h1,
    args_of (set_heap (fun _ => h1) w) options = Some (old ++ fixed_flags) /\
    V1.create E (Some options) w =
    (launch E options "new" ;;
     spawn <- chromeSpawnArgs E ;;
     console_log (LogInitialized options) ;;
     ret {| V1.browser := TheBrowser;
            V1.chromeTmpDataDir := scan_user_data_dir spawn |})
      (set_heap (fun _ => h1) w).
Proof.
  intros Ha. pose proof Ha as Ha'. unfold args_of, V1.create in *.
  destruct (objects (heap w) !! options) as [o|] eqn:Ho; [|done].
  unfold bind at 1. unfold ret at 1. cbn beta iota.
  unfold bind at 1. unfold get_args at 1. rewrite Ho.
  destruct (args o) as [a|] eqn:Hargs.
  - unfold bind at 1. unfold ret at 1. cbn beta iota.
    unfold bind at 1. unfold get_args at 1. rewrite Ho, Hargs.
    unfold bind at 1. rewrite (push_flags_eval a old w Ha).
    eexists. split; [|reflexivity]. simpl. rewrite Ho, Hargs. apply lookup_insert_eq.
  - injection Ha as <-.
    unfold bind at 1. unfold bind at 1. unfold new_array at 1. cbn beta iota zeta.
    unfold set_args at 1. cbn [heap set_heap objects]. rewrite Ho.
    unfold bind at 1. unfold get_args at 1. cbn [heap set_heap objects].
    rewrite lookup_insert_eq. cbn [args].
    unfold bind at 1.
    erewrite (push_flags_eval _ []) by (simpl; apply lookup_insert_eq).
    eexists. split; [|reflexivity]. simpl. rewrite lookup_insert_eq. simpl.
    apply lookup_insert_eq.
Qed.

(** X3: [create] of the first revision fails exactly when the launch is
    rejected, with the error of the launch, and then neither a browser runs
    nor is anything logged; when the launch is accepted it returns a
    renderer that records the directory found among the spawn arguments of
    the browser (none when the process has no spawn arguments), the browser
    runs and the initialisation is logged once. *)
Theorem create_returns_renderer_or_launch_error (E : Engine) (options : loc)
    (old : list string) (w : World) :
  args_of w options = Some old ->
  let launched := Launch (old ++ fixed_flags) "new" in
  let w' := (V1.create E (Some options) w).2 in
  match failure (respond E (trace w) launched) with
  | Some message =>
      (V1.create E (Some options) w).1 = Err (EngineError message) /\
      browserRunning w' = browserRunning w /\ console w' = console w
  | None =>
      (V1.create E (Some options) w).1 =
        Ok {| V1.browser := TheBrowser;
              V1.chromeTmpDataDir :=
                scan_user_data_dir
                  (default [] (spawnargs E (trace w ++ [Ev launched true]))) |} /\
      browserRunning w' = true /\
      console w' = console w ++ [LogInitialized options]
  end.
Proof.
  intros Ha launched w'. unfold w'.
  destruct (create_v1_eval_heap E options old w Ha) as (h1 & Ha1 & ->).
  unfold bind. rewrite !(launch_eval E options "new" _ _ Ha1), !engineCall_eval.
  cbn [trace set_heap]. fold launched.
  destruct (failure (respond E (trace w) launched)); by repeat split.
Qed.

(** The theorem for a caller that passes one argument of its own. *)
Lemma create_returns_witness :
  (V1.create obliging (Some 0) with_caller_options).1 =
  Ok {| V1.browser := TheBrowser;
        V1.chromeTmpDataDir := Some "/tmp/puppeteer_dev_chrome_profile-Ab12" |}.
Proof.
  exact (proj1 (create_returns_renderer_or_launch_error obliging 0
                  ["--window-size=800,600"] with_caller_options eq_refl)).
Defined.

(** X4: the second revision does not touch the array the caller passed:
    after [create] the array holds what it held, and the caller's object
    refers to another array, which holds the former elements and the five
    flags. *)
Theorem create_v2_leaves_caller_array (E : Engine) (options : loc)
    (o : LaunchOptions) (a : loc) (old : list string) (w : World) :
  objects (heap w) !! options = Some o -> args o = Some a ->
  arrays (heap w) !! a = Some old ->
  let w' := (V2.create E (Some options) w).2 in
  arrays (heap w') !! a = Some old /\
  exists a', a' <> a /\
    objects (heap w') !! options = Some {| args := Some a'; headless := headless o |} /\
    arrays (heap w') !! a' = Some (old ++ fixed_flags).
Proof.
  intros Ho Hargs Hold w'.
  assert (args_of w options = Some old) as Ha.
  { unfold args_of. by rewrite Ho, Hargs. }
  destruct (create_v2_launches E options old w Ha) as ((_ & _ & _ & Hf) & _).
  fold w' in Hf. rewrite Ho, Hargs in Hf.
  destruct Hf as (old' & Hold' & a' & Hfresh & Hh). simpl in Hh.
  rewrite Hold in Hold'. injection Hold' as <-.
  assert (a' <> a) as Hne.
  { intros ->. apply Hfresh. apply elem_of_dom. eauto. }
  rewrite Hh. simpl. split.
  - by rewrite lookup_insert_ne.
  - exists a'. split; [done|]. split; apply lookup_insert_eq.
Qed.

(** The theorem for a caller that passes one argument of its own. *)
Lemma create_v2_leaves_witness :
  arrays (heap (V2.create obliging (Some 0) with_caller_options).2) !! 0 =
  Some ["--window-size=800,600"].
Proof.
  exact (proj1 (create_v2_leaves_caller_array obliging 0
                  {| args := Some 0; headless := None |} 0 ["--window-size=800,600"]
                  with_caller_options eq_refl eq_refl eq_refl)).
Defined.

(** ** Edges of [close] *)

(** X5: when [browser.close()] is rejected, [close] of the first revision
    throws that error at once: [fs.removeSync] is not called and the files,
    the recorded directory among them, stay. *)
Theorem close_keeps_directory_when_browser_close_fails (E : Engine)
    (r : V1.Renderer) (w : World) (message : string) :
  failure (respond E (trace w) BrowserClose) = Some message ->
  (V1.close E r w).1 = Err (EngineError message) /\
  events_of (V1.close E r) w = [Ev BrowserClose false] /\
  files (V1.close E r w).2 = files w /\
  browserRunning (V1.close E r w).2 = browserRunning w.
Proof.
  intros Hf. unfold events_of, V1.close, bind, browserClose.
  rewrite engineCall_eval, Hf. simpl. repeat split. apply drop_app_length.
Qed.

(** The theorem at an engine that rejects [browser.close()]. *)
Lemma close_keeps_directory_witness :
  files (V1.close
           {| JSON_parse := JSON.parse;
              respond := fun _ c => match c with
                                    | BrowserClose => rejects "Connection closed"
                                    | _ => accepts
                                    end;
              content_of := content_of obliging; pdf_of := pdf_of obliging;
              screenshot_of := screenshot_of obliging;
              spawnargs := spawnargs obliging |}
           {| V1.browser := TheBrowser;
              V1.chromeTmpDataDir := Some "/tmp/puppeteer_dev_chrome_profile-Ab12" |}
           idle).2 = files idle.
Proof.
  refine (proj1 (proj2 (proj2 (close_keeps_directory_when_browser_close_fails _ _ idle
                                 "Connection closed" _)))).
  reflexivity.
Defined.

(** X6: a renderer that recorded no directory, or the empty string, closes
    the browser and makes no other call; the files stay as they are. *)
Theorem close_without_directory (E : Engine) (r : V1.Renderer) (w : World) :
  V1.chromeTmpDataDir r = None \/ V1.chromeTmpDataDir r = Some "" ->
  (exists ok, events_of (V1.close E r) w = [Ev BrowserClose ok]) /\
  files (V1.close E r w).2 = files w.
Proof.
  intros Hr. unfold events_of, V1.close, bind, browserClose.
  rewrite engineCall_eval.
  destruct (failure _).
  - simpl. split; [|done]. exists false. apply drop_app_length.
  - destruct Hr as [-> | ->]; simpl; (split; [|done]); exists true; apply drop_app_length.
Qed.

(** The theorem for a renderer without directory. *)
Lemma close_without_directory_witness :
  files (V1.close obliging {| V1.browser := TheBrowser; V1.chromeTmpDataDir := None |}
           idle).2 = files idle.
Proof.
  exact (proj2 (close_without_directory obliging
                  {| V1.browser := TheBrowser; V1.chromeTmpDataDir := None |} idle
                  (or_introl eq_refl))).
Defined.

(** ** The guard and the log of [closePage] *)

(** X7: [closePage] does nothing at all for an undefined page and for a page
    that is closed already: no call reaches the engine and the world is as
    it was, in both revisions. *)
Theorem closePage_skips_closed_pages (E : Engine) (page : option Page) (w : World) :
  page = None \/ (exists p, page = Some p /\ isClosed p w = true) ->
  V1.closePage E page w = (Ok tt, w) /\ V2.closePage E page w = (Ok tt, w).
Proof.
  intros [->|(p & -> & Hc)]; [by split|].
  unfold V1.closePage, V2.closePage, try_catch, bind, page_isClosed, when, ret.
  rewrite Hc. by split.
Qed.

(** The theorem for a page that the engine has closed. *)
Lemma closePage_skips_witness :
  V1.closePage stubborn (Some 0) (set_pages (fun _ => [PageClosed]) idle) =
  (Ok tt, set_pages (fun _ => [PageClosed]) idle).
Proof.
  refine (proj1 (closePage_skips_closed_pages stubborn (Some 0)
                   (set_pages (fun _ => [PageClosed]) idle) _)).
  right. exists 0. split; reflexivity.
Defined.

(** X8: the first revision never logs what [closePage] swallows; the second
    logs a line, once, exactly when it called [page.close()] and the call was
    rejected. *)
Theorem closePage_log (E : Engine) (page : option Page) (w : World) :
  console (V1.closePage E page w).2 = console w /\
  console (V2.closePage E page w).2 =
    console w ++
    match page with
    | Some p =>
        if isClosed p w then []
        else match failure (respond E (trace w) (PageCall p Close)) with
             | Some message => [LogCloseFailed (EngineError message)]
             | None => []
             end
    | None => []
    end.
Proof.
  unfold V1.closePage, V2.closePage, try_catch, bind, page_isClosed, when, ret,
    console_log, pageCall, outcome.
  destruct page as [p|]; simpl; [|by rewrite app_nil_r].
  destruct (isClosed p w); simpl; [by rewrite app_nil_r|].
  destruct (failure _); simpl; destruct (closes _ _); simpl; by rewrite ?app_nil_r.
Qed.

(** ** What a render call leaves alone *)

Create HintDb keeps.

Lemma keeps_ret {A} (a : A) : keeps_surroundings (ret a).
Proof. by intros w. Qed.

Lemma keeps_throw {A} e : keeps_surroundings (@throw A e).
Proof. by intros w. Qed.

Lemma keeps_bind {A B} (m : M A) (k : A -> M B) :
  keeps_surroundings m -> (forall a, keeps_surroundings (k a)) ->
  keeps_surroundings (bind m k).
Proof.
  intros Hm Hk w. unfold bind. specialize (Hm w).
  destruct (m w) as [[a|e] w1]; simpl in *; [|done]. by rewrite Hk.
Qed.

Lemma keeps_when c m : keeps_surroundings m -> keeps_surroundings (when c m).
Proof. destruct c; [done|]. intros _. apply keeps_ret. Qed.

Lemma keeps_try_finally {A} (body : M A) fin :
  keeps_surroundings body -> keeps_surroundings fin ->
  keeps_surroundings (try_finally body fin).
Proof.
  intros Hb Hf w. unfold try_finally. specialize (Hb w).
  destruct (body w) as [r w1]. specialize (Hf w1).
  destruct (fin w1) as [[[]|e] w2]; simpl in *; congruence.
Qed.

Lemma keeps_try_catch {A} (body : M A) handler :
  keeps_surroundings body -> (forall e, keeps_surroundings (handler e)) ->
  keeps_surroundings (try_catch body handler).
Proof.
  intros Hb Hh w. unfold try_catch. specialize (Hb w).
  destruct (body w) as [[a|e] w1]; simpl in *; [done|]. by rewrite Hh.
Qed.

Lemma keeps_let_try_finally {A B} (acquire : M A) (rest : A -> M B) fin :
  keeps_surroundings acquire -> (forall x, keeps_surroundings (rest x)) ->
  (forall x, keeps_surroundings (fin x)) ->
  keeps_surroundings (let_try_finally acquire rest fin).
Proof.
  intros Ha Hr Hf w. unfold let_try_finally. specialize (Ha w).
  destruct (acquire w) as [[x|e] w1]; simpl in *.
  - by rewrite (keeps_try_finally _ _ (Hr x) (Hf (Some x))).
  - by rewrite (keeps_try_finally _ _ (keeps_throw e) (Hf None)).
Qed.

Lemma keeps_let_try_catch {A B} (acquire : M A) (rest : A -> M B) handler :
  keeps_surroundings acquire -> (forall x, keeps_surroundings (rest x)) ->
  (forall x e, keeps_surroundings (handler x e)) ->
  keeps_surroundings (let_try_catch acquire rest handler).
Proof.
  intros Ha Hr Hh w. unfold let_try_catch. specialize (Ha w).
  destruct (acquire w) as [[x|e] w1]; simpl in *.
  - by rewrite (keeps_try_catch _ _ (Hr x) (Hh (Some x))).
  - by rewrite Hh.
Qed.

Lemma keeps_pageCall E p op : keeps_surroundings (pageCall E p op).
Proof. intros w. unfold pageCall. simpl. by destruct (closes _ _). Qed.

Lemma keeps_pageOn p name : keeps_surroundings (pageOn p name).
Proof. by intros w. Qed.

Lemma keeps_newPage E : keeps_surroundings (newPage E).
Proof. intros w. unfold newPage. by destruct (failure _). Qed.

Lemma keeps_page_isClosed p : keeps_surroundings (page_isClosed p).
Proof. by intros w. Qed.

Lemma keeps_console_log l : keeps_surroundings (console_log l).
Proof. by intros w. Qed.

Lemma keeps_parseJSON E text : keeps_surroundings (parseJSON E text).
Proof. unfold parseJSON. destruct (JSON_parse E text); [apply keeps_ret|apply keeps_throw]. Qed.

Lemma keeps_content E p : keeps_surroundings (content E p).
Proof.
  intros w. unfold content.
  apply (keeps_bind (pageCall E p Content) (fun _ => ret (content_of E (trace w) p))).
  - apply keeps_pageCall.
  - intros. apply keeps_ret.
Qed.

Lemma keeps_pdfBytes E p o : keeps_surroundings (pdfBytes E p o).
Proof.
  intros w. unfold pdfBytes.
  apply (keeps_bind (pageCall E p (Pdf o)) (fun _ => ret (pdf_of E (trace w) p o))).
  - apply keeps_pageCall.
  - intros. apply keeps_ret.
Qed.

Lemma keeps_screenshotBytes E p o : keeps_surroundings (screenshotBytes E p o).
Proof.
  intros w. unfold screenshotBytes.
  apply (keeps_bind (pageCall E p (Screenshot o))
           (fun _ => ret (screenshot_of E (trace w) p o))).
  - apply keeps_pageCall.
  - intros. apply keeps_ret.
Qed.

#[local] Hint Resolve keeps_ret keeps_throw keeps_pageCall
  keeps_pageOn keeps_newPage keeps_page_isClosed keeps_console_log keeps_parseJSON
  keeps_content keeps_pdfBytes keeps_screenshotBytes : keeps.

Ltac keeps :=
  repeat (intros;
          first [ progress eauto with keeps
                | match goal with
                  | |- keeps_surroundings (match ?x with _ => _ end) => destruct x
                  | |- keeps_surroundings (if ?x then _ else _) => destruct x
                  end
                | apply keeps_let_try_finally
                | apply keeps_let_try_catch
                | apply keeps_try_finally
                | apply keeps_try_catch
                | apply keeps_when
                | apply keeps_bind ]).

Lemma keeps_closePage_v1 E page : keeps_surroundings (V1.closePage E page).
Proof. unfold V1.closePage. keeps. Qed.

Lemma keeps_closePage_v2 E page : keeps_surroundings (V2.closePage E page).
Proof. unfold V2.closePage. keeps. Qed.

Lemma keeps_createPage_v1 E url o : keeps_surroundings (V1.createPage E url o).
Proof.
  unfold V1.createPage, V1.configure. pose proof (keeps_closePage_v1 E). keeps.
Qed.

Lemma keeps_createPage_v2 E url o : keeps_surroundings (V2.createPage E url o).
Proof. unfold V2.createPage. keeps. Qed.

(** X9: no render call of either revision starts or stops the browser,
    touches a file or changes the heap, however it ends. *)
Theorem render_calls_keep_surroundings (E : Engine) (url : string)
    (o : PageOptions) (pdfOptions : PdfOptions) (v : PageViewportOptions)
    (s : ScreenshotOptions) :
  keeps_surroundings (V1.html E url o) /\
  keeps_surroundings (V1.pdf E url o pdfOptions) /\
  keeps_surroundings (V1.screenshot E url o v s) /\
  keeps_surroundings (V2.html E url o) /\
  keeps_surroundings (V2.pdf E url o pdfOptions) /\
  keeps_surroundings (V2.screenshot E url o v s).
Proof.
  pose proof (keeps_closePage_v1 E). pose proof (keeps_closePage_v2 E).
  pose proof (keeps_createPage_v1 E). pose proof (keeps_createPage_v2 E).
  unfold V1.html, V1.pdf, V1.screenshot, V1.capture, V2.html, V2.pdf, V2.screenshot,
    V2.withPage.
  repeat split; keeps.
Qed.

(** ** The log of a render call *)

Lemma pageCall_console E p op w : console (pageCall E p op w).2 = console w.
Proof. unfold pageCall. simpl. by destruct (closes _ _). Qed.

Lemma play_console E p script w : console (play E p script w).2 = console w.
Proof.
  revert w. induction script as [|[op|e] rest IH]; intros w; simpl; try done.
  unfold bind. pose proof (pageCall_console E p op w) as H.
  destruct (pageCall E p op w) as [[[]|e] w1]; simpl in *; [|done].
  by rewrite IH.
Qed.

Lemma newPage_console E w : console (newPage E w).2 = console w.
Proof. rewrite newPage_eval. by destruct (failure _). Qed.

Section FirstRevisionLog.

Context {A : Type} (E : Engine) (url : string) (o : PageOptions).
Context (body : Page -> M A) (script : list step).
Hypothesis body_plays : forall p w, void (body p) w = play E p script w.

Lemma call_console w :
  console (let_try_finally (V1.createPage E url o) body (V1.closePage E) w).2 =
  console w ++
  match (V1.createPage E url o w).1 with
  | Err e => [LogError e]
  | Ok _ => []
  end.
Proof.
  rewrite let_try_finally_eval by (intros; apply closePage_v1_ok).
  rewrite createPage_v1_eval.
  pose proof (newPage_console E w) as Hn.
  destruct (newPage E w) as [[p|e] w1]; simpl in Hn.
  - pose proof (play_console E p (config_script E url o) (pageOn p "error" w1).2) as Hp.
    destruct (play E p (config_script E url o) _) as [[[]|e] w3]; simpl in Hp |- *.
    + rewrite (proj1 (closePage_log E _ _)).
      pose proof (body_plays p w3) as Hb. rewrite void_eq in Hb.
      apply (f_equal snd) in Hb. simpl in Hb. rewrite Hb, play_console, Hp, Hn.
      by rewrite app_nil_r.
    + rewrite !(proj1 (closePage_log E _ _)). simpl. by rewrite Hp, Hn.
  - simpl. by rewrite Hn.
Qed.

End FirstRevisionLog.

(** X10: a render call of the first revision logs the error once when
    [createPage] throws (the page could not be opened, or a configuration
    step or the navigation failed), and logs nothing otherwise: not on
    success, not when the extraction fails, not when the close fails. *)
Theorem render_call_logs_createPage_errors (E : Engine) (url : string)
    (o : PageOptions) (pdfOptions : PdfOptions) (v : PageViewportOptions)
    (s : ScreenshotOptions) (w : World) :
  let logged (options : PageOptions) :=
    match (V1.createPage E url options w).1 with
    | Err e => [LogError e]
    | Ok _ => []
    end in
  console (V1.html E url o w).2 = console w ++ logged o /\
  console (V1.pdf E url o pdfOptions w).2 = console w ++ logged (print_by_default o) /\
  console (V1.screenshot E url o v s w).2 = console w ++ logged o.
Proof.
  intros logged. repeat split.
  - apply (call_console E url o (content E) _ (content_plays E)).
  - apply (call_console E url (print_by_default o) (fun p => pdfBytes E p pdfOptions) _
             (fun p => pdfBytes_plays E p pdfOptions)).
  - apply (call_console E url o (fun p => V1.capture E p v s) _
             (fun p => capture_plays E p v s)).
Qed.

(** ** The pages of a render call *)

Lemma mark_closed_last ps s :
  mark_closed (length ps) (ps ++ [s]) = ps ++ [PageClosed].
Proof. unfold mark_closed. rewrite insert_app_r_alt by lia. by rewrite Nat.sub_diag. Qed.

Lemma course_pages_own E script w :
  exists tail, pages (course E script w).2 = pages w ++ tail /\ length tail <= 1.
Proof.
  rewrite course_eval, newPage_eval.
  destruct (failure _) as [msg|].
  - exists []. simpl. split; [by rewrite app_nil_r|lia].
  - cbv zeta. unfold snd at 1.
    match goal with |- context [play E ?p script ?w0] => set (w1 := w0) end.
    set (s0 := if target_gone (respond E (trace w) NewPage) then PageClosed else PageOpen).
    assert (pages w1 = pages w ++ [s0]) as Hw1 by reflexivity.
    assert (forall ps, ps = pages w ++ [s0] \/ ps = pages w ++ [PageClosed] ->
                       mark_closed (next_page w) ps = pages w ++ [PageClosed]) as Hm.
    { intros ps [-> | ->]; apply mark_closed_last. }
    assert (pages (play E (next_page w) script w1).2 = pages w ++ [s0] \/
            pages (play E (next_page w) script w1).2 = pages w ++ [PageClosed]) as Hp.
    { destruct (play_pages E (next_page w) script w1) as [H|H]; rewrite H, Hw1; auto. }
    destruct (closePage_v1_pages E (next_page w) (play E (next_page w) script w1).2)
      as [H|H]; rewrite H.
    + destruct Hp as [-> | ->]; eexists; split; try reflexivity; simpl; lia.
    + rewrite (Hm _ Hp). eexists; split; try reflexivity; simpl; lia.
Qed.

(** X11: whatever the engine answers, a render call of the first revision
    leaves the pages that existed before it as they were and adds at most
    one page. *)
Theorem render_call_touches_own_page_only (E : Engine) (url : string)
    (o : PageOptions) (pdfOptions : PdfOptions) (v : PageViewportOptions)
    (s : ScreenshotOptions) (w : World) :
  (exists tail, pages (V1.html E url o w).2 = pages w ++ tail /\ length tail <= 1) /\
  (exists tail, pages (V1.pdf E url o pdfOptions w).2 = pages w ++ tail /\
                length tail <= 1) /\
  (exists tail, pages (V1.screenshot E url o v s w).2 = pages w ++ tail /\
                length tail <= 1).
Proof.
  repeat split.
  - destruct (call_follows_course E url o (content E) _ (content_plays E) w)
      as [[_ Hp] _].
    match type of Hp with
    | _ = pages (course _ ?sc _).2 =>
        destruct (course_pages_own E sc w) as (tail & Ht & Hl)
    end.
    exists tail. split; [|done]. rewrite <- Ht. exact Hp.
  - destruct (call_follows_course E url (print_by_default o)
                (fun p => pdfBytes E p pdfOptions) _
                (fun p => pdfBytes_plays E p pdfOptions) w) as [[_ Hp] _].
    match type of Hp with
    | _ = pages (course _ ?sc _).2 =>
        destruct (course_pages_own E sc w) as (tail & Ht & Hl)
    end.
    exists tail. split; [|done]. rewrite <- Ht. exact Hp.
  - destruct (call_follows_course E url o (fun p => V1.capture E p v s) _
                (fun p => capture_plays E p v s) w) as [[_ Hp] _].
    match type of Hp with
    | _ = pages (course _ ?sc _).2 =>
        destruct (course_pages_own E sc w) as (tail & Ht & Hl)
    end.
    exists tail. split; [|done]. rewrite <- Ht. exact Hp.
Qed.

(** ** What navigation is given *)

Lemma goto_event_options E url o w evs q u options ok :
  configured_in_order E url o w evs ->
  Ev (PageCall q (Goto u options)) ok ∈ evs ->
  q = next_page w /\ u = url /\ options = rest_options o.
Proof.
  intros (_ & Hplan & _) Hin. specialize (Hplan _ Hin eq_refl). simpl in Hplan.
  apply config_calls_inv in Hplan.
  destruct Hplan as [(h & j & H & _)|[(m' & H & Hm)|[(cr & H & _)|[H|H]]]];
    try discriminate.
  by injection H as -> -> ->.
Qed.

(** X12: in the first revision every navigation goes to the url of the
    call with the navigation options alone: the credentials, the headers and
    the media type of the caller are never handed to [page.goto]. *)
Theorem navigation_gets_navigation_options_only (E : Engine) (url : string)
    (o : PageOptions) (pdfOptions : PdfOptions) (v : PageViewportOptions)
    (s : ScreenshotOptions) (w : World) (q : Page) (u : string)
    (options : PageOptions) (ok : bool) :
  Ev (PageCall q (Goto u options)) ok ∈ events_of (V1.html E url o) w \/
  Ev (PageCall q (Goto u options)) ok ∈ events_of (V1.pdf E url o pdfOptions) w \/
  Ev (PageCall q (Goto u options)) ok ∈ events_of (V1.screenshot E url o v s) w ->
  u = url /\
  options = {| timeout := timeout o; waitUntil := waitUntil o; credentials := None;
               emulateMediaType := None; headers := None |}.
Proof.
  intros [H|[H|H]].
  - eapply (goto_event_options E url o w) in H as (_ & -> & ->); [done|].
    apply (call_configured_in_order E url o (content E) [Do Content]
             (content_plays E) content_script_sorted content_script_extracts).
  - eapply (goto_event_options E url (print_by_default o) w) in H as (_ & -> & ->); [done|].
    apply (call_configured_in_order E url (print_by_default o)
             (fun p => pdfBytes E p pdfOptions) [Do (Pdf pdfOptions)]
             (fun p => pdfBytes_plays E p pdfOptions)
             (pdf_script_sorted pdfOptions) (pdf_script_extracts pdfOptions)).
  - eapply (goto_event_options E url o w) in H as (_ & -> & ->); [done|].
    apply (call_configured_in_order E url o (fun p => V1.capture E p v s)
             (capture_script v s) (fun p => capture_plays E p v s)
             (capture_script_sorted v s) (capture_script_extracts v s)).
Qed.

(** The theorem at the navigation of a call with credentials. *)
Lemma navigation_options_witness :
  "https://example.com" = "https://example.com" /\
  rest_options
    {| timeout := Some 5000%Z; waitUntil := None;
       credentials := Some {| username := "u"; password := "p" |};
       emulateMediaType := None; headers := None |} =
  {| timeout := Some 5000%Z; waitUntil := None; credentials := None;
     emulateMediaType := None; headers := None |}.
Proof.
  refine (navigation_gets_navigation_options_only obliging "https://example.com"
            {| timeout := Some 5000%Z; waitUntil := None;
               credentials := Some {| username := "u"; password := "p" |};
               emulateMediaType := None; headers := None |}
            [] {| width := 800; height := 600 |}
            {| animationTimeout := 0; type := "png"; quality := None; shot_rest := [] |}
            idle 0 _ _ true _).
  left. vm_compute. do 4 right. left.
Defined.

(** ** When a render call succeeds *)

Lemma pageOn_newPage_trace E w :
  failure (respond E (trace w) NewPage) = None ->
  trace (pageOn (next_page w) "error" (newPage E w).2).2 =
  trace w ++ [Ev NewPage true; Ev (PageCall (next_page w) (On "error")) true].
Proof. intros Hf. rewrite newPage_eval, Hf. simpl. by rewrite <- app_assoc. Qed.

Lemma forget_ok {A} (r : result A) : forget r = Ok tt <-> exists a, r = Ok a.
Proof. destruct r; simpl; split; eauto; try discriminate. by intros [a H]. Qed.

Lemma call_succeeds_iff {A} E url o (body : Page -> M A) script w :
  (forall p w, void (body p) w = play E p script w) ->
  (exists a, (let_try_finally (V1.createPage E url o) body (V1.closePage E) w).1 = Ok a) <->
  failure (respond E (trace w) NewPage) = None /\
  completes E (next_page w) (config_script E url o ++ script)
    (trace w ++ [Ev NewPage true; Ev (PageCall (next_page w) (On "error")) true]) = true.
Proof.
  intros Hb. rewrite <- forget_ok, (call_result E url o body script Hb w).
  destruct (failure (respond E (trace w) NewPage)) eqn:Hf.
  - split; [discriminate|]. by intros [? _].
  - rewrite play_result, (pageOn_newPage_trace E w Hf). split; [done|]. by intros [_ ?].
Qed.

(** X13: a render call of the first revision returns a value exactly when
    the page was opened and every step of the configuration and of the
    extraction was accepted by the engine (and the headers, if any, are
    JSON); what the engine answers to [page.close()] plays no part. *)
Theorem render_call_succeeds_iff (E : Engine) (url : string)
    (o : PageOptions) (pdfOptions : PdfOptions) (v : PageViewportOptions)
    (s : ScreenshotOptions) (w : World) :
  let p := next_page w in
  let opened := failure (respond E (trace w) NewPage) = None in
  let t := trace w ++ [Ev NewPage true; Ev (PageCall p (On "error")) true] in
  ((exists html, (V1.html E url o w).1 = Ok html) <->
   opened /\ completes E p (config_script E url o ++ [Do Content]) t = true) /\
  ((exists buffer, (V1.pdf E url o pdfOptions w).1 = Ok buffer) <->
   opened /\
   completes E p (config_script E url (print_by_default o) ++ [Do (Pdf pdfOptions)]) t
   = true) /\
  ((exists shot, (V1.screenshot E url o v s w).1 = Ok shot) <->
   opened /\ completes E p (config_script E url o ++ capture_script v s) t = true).
Proof.
  intros p opened t. split; [|split].
  - apply (call_succeeds_iff E url o (content E) _ w (content_plays E)).
  - apply (call_succeeds_iff E url (print_by_default o) (fun p => pdfBytes E p pdfOptions)
             _ w (fun p => pdfBytes_plays E p pdfOptions)).
  - apply (call_succeeds_iff E url o (fun p => V1.capture E p v s) _ w
             (fun p => capture_plays E p v s)).
Qed.

(** ** When the page cannot be opened *)

Lemma call_v1_without_page {A} E url o (body : Page -> M A) w message :
  failure (respond E (trace w) NewPage) = Some message ->
  fails_without_page message
    (let_try_finally (V1.createPage E url o) body (V1.closePage E)) w.
Proof.
  intros Hf. unfold fails_without_page, events_of.
  rewrite let_try_finally_eval by (intros; apply closePage_v1_ok).
  rewrite createPage_v1_eval, newPage_eval, Hf. simpl.
  repeat split. apply drop_app_length.
Qed.

Lemma call_v2_without_page {A} E url o (fn : Page -> M A) w message :
  failure (respond E (trace w) NewPage) = Some message ->
  fails_without_page message (V2.withPage E fn url o) w.
Proof.
  intros Hf. unfold fails_without_page, events_of, V2.withPage.
  rewrite let_try_finally_eval by (intros; apply closePage_v2_ok).
  unfold V2.createPage, bind. rewrite newPage_eval, Hf. simpl.
  repeat split. apply drop_app_length.
Qed.

(** X14: when [browser.newPage()] is rejected, a render call of either
    revision fails with that error after this one call: nothing is
    configured, nothing is closed and the pages are as they were. *)
Theorem render_call_without_page (E : Engine) (url : string)
    (o : PageOptions) (pdfOptions : PdfOptions) (v : PageViewportOptions)
    (s : ScreenshotOptions) (w : World) (message : string) :
  failure (respond E (trace w) NewPage) = Some message ->
  fails_without_page message (V1.html E url o) w /\
  fails_without_page message (V1.pdf E url o pdfOptions) w /\
  fails_without_page message (V1.screenshot E url o v s) w /\
  fails_without_page message (V2.html E url o) w /\
  fails_without_page message (V2.pdf E url o pdfOptions) w /\
  fails_without_page message (V2.screenshot E url o v s) w.
Proof.
  intros Hf. refine (conj _ (conj _ (conj _ (conj _ (conj _ _)))));
    (by apply call_v1_without_page) || (by apply call_v2_without_page).
Qed.

(** The theorem at an engine that cannot open a page. *)
Lemma render_call_without_page_witness :
  fails_without_page "Protocol error (Target.createTarget)"
    (V1.html
       {| JSON_parse := JSON.parse;
          respond := fun _ c => match c with
                                | NewPage => rejects "Protocol error (Target.createTarget)"
                                | _ => accepts
                                end;
          content_of := content_of obliging; pdf_of := pdf_of obliging;
          screenshot_of := screenshot_of obliging; spawnargs := spawnargs obliging |}
       "https://example.com" plain) idle.
Proof.
  refine (proj1 (render_call_without_page _ "https://example.com" plain []
                   {| width := 800; height := 600 |}
                   {| animationTimeout := 0; type := "png"; quality := None;
                      shot_rest := [] |} idle _ _)).
  reflexivity.
Defined.

(** ** The page that the second revision leaves open *)

(** X15: in the second revision, when the page was opened and the headers
    are a non-empty string that is not JSON, [withPage] fails with the
    [SyntaxError] and calls nothing after the listener was registered: no
    [page.close()] is made and the page is still open when the call
    returns. *)
Theorem withPage_leaves_page_open (E : Engine) {A : Type} (fn : Page -> M A)
    (url : string) (o : PageOptions) (h : string) (w : World) :
  headers o = Some h -> h <> "" -> JSON_parse E h = None ->
  failure (respond E (trace w) NewPage) = None ->
  target_gone (respond E (trace w) NewPage) = false ->
  (V2.withPage E fn url o w).1 = Err (SyntaxError h) /\
  events_of (V2.withPage E fn url o) w =
    [Ev NewPage true; Ev (PageCall (next_page w) (On "error")) true] /\
  pages (V2.withPage E fn url o w).2 = pages w ++ [PageOpen].
Proof.
  intros Hh Hne Hp Hf Hg. unfold events_of, V2.withPage.
  rewrite let_try_finally_eval by (intros; apply closePage_v2_ok).
  rewrite createPage_v2_plays.
  destruct (config_script_bad_headers E url o h Hh Hne Hp) as [rest ->].
  unfold bind. rewrite newPage_eval, Hf, Hg.
  simpl. repeat split. rewrite <- app_assoc. apply drop_app_length.
Qed.

(** The theorem at headers that lack their closing brace. *)
Lemma withPage_leaves_page_open_witness :
  pages (V2.html obliging "https://example.com" (with_headers "{oops") idle).2 =
  [PageOpen].
Proof.
  refine (proj2 (proj2 (withPage_leaves_page_open obliging _ "https://example.com"
                          (with_headers "{oops") "{oops" idle eq_refl _ eq_refl
                          eq_refl eq_refl))).
  discriminate.
Defined.

(** ** What a render call returns *)

(** A call on the page that returns leaves one more event. *)
Lemma pageCall_ok E p op w :
  (pageCall E p op w).1 = Ok tt ->
  trace (pageCall E p op w).2 = trace w ++ [Ev (PageCall p op) true].
Proof.
  rewrite pageCall_trace, pageCall_result. unfold outcome, answered.
  by destruct (failure _).
Qed.

(** The state in which the body of a call of the first revision starts:
    the page is open(ed) and configured. *)
Lemma createPage_v1_ok E url o w p w3 :
  V1.createPage E url o w = (Ok p, w3) ->
  p = next_page w /\
  exists pre, trace w3 = trace w ++ pre /\
    forall e, e ∈ pre -> is_extraction (ev_call e) = false.
Proof.
  rewrite createPage_v1_eval, newPage_eval.
  destruct (failure _); [discriminate|].
  set (opening := [Ev NewPage true; Ev (PageCall (next_page w) (On "error")) true]).
  match goal with |- context [play E ?q ?sc ?w0] =>
    pose proof (play_trace E q sc w0) as Ht;
    assert (trace w0 = trace w ++ opening) as Ht0
      by (simpl; by rewrite <- app_assoc)
  end.
  rewrite Ht0 in Ht.
  destruct (play E _ _ _) as [[[]|e] w3']; [|discriminate].
  intros [= <- <-]. split; [reflexivity|].
  exists (opening ++ played E (next_page w) (config_script E url o) (trace w ++ opening)).
  split; [by rewrite app_assoc|].
  intros e He. apply elem_of_app in He as [He|He].
  - apply elem_of_cons in He as [->|He]; [done|].
    apply list_elem_of_singleton in He. by subst e.
  - apply played_elem, config_calls_are_config in He as [He _].
    by apply config_not_extraction.
Qed.

Lemma closePage_v1_tail E p w :
  exists tail, trace (V1.closePage E (Some p) w).2 = trace w ++ tail.
Proof.
  destruct (closePage_v1_trace E p w) as [H|[ok H]]; rewrite H.
  - exists []. by rewrite app_nil_r.
  - eauto.
Qed.

(** X16: the string that [html] returns is what the engine answered to
    [page.content()], the buffer that [pdf] returns is what it answered to
    [page.pdf(pdfOptions)], at the point of the trace where that call was
    made on the page of the call, and no extraction call came before. *)
Theorem html_and_pdf_return_engine_answer (E : Engine) (url : string)
    (o : PageOptions) (pdfOptions : PdfOptions) (w : World) :
  let p := next_page w in
  (forall html, (V1.html E url o w).1 = Ok html ->
     exists pre post,
       events_of (V1.html E url o) w = pre ++ Ev (PageCall p Content) true :: post /\
       (forall e, e ∈ pre -> is_extraction (ev_call e) = false) /\
       html = content_of E (trace w ++ pre) p) /\
  (forall buffer, (V1.pdf E url o pdfOptions w).1 = Ok buffer ->
     exists pre post,
       events_of (V1.pdf E url o pdfOptions) w =
         pre ++ Ev (PageCall p (Pdf pdfOptions)) true :: post /\
       (forall e, e ∈ pre -> is_extraction (ev_call e) = false) /\
       buffer = pdf_of E (trace w ++ pre) p pdfOptions).
Proof.
  intros p. split.
  - intros html. unfold events_of, V1.html.
    rewrite let_try_finally_eval by (intros; apply closePage_v1_ok).
    destruct (V1.createPage E url o w) as [[q|e] w3] eqn:Hc; [|discriminate].
    destruct (createPage_v1_ok E url o w q w3 Hc) as (-> & pre & Ht & Hpre).
    fold p. cbn [fst snd]. unfold content at 1 2. unfold bind, ret.
    pose proof (pageCall_ok E p Content w3) as Hok.
    destruct (pageCall E p Content w3) as [[[]|e] w4]; [|discriminate].
    intros [= <-]. specialize (Hok eq_refl). simpl in Hok.
    destruct (closePage_v1_tail E p w4) as (tail & Htail).
    exists pre, tail. split; [|split; [exact Hpre|by rewrite Ht]].
    unfold content, bind, ret.
    cbn [snd]. rewrite Htail, Hok, Ht, <- !app_assoc. apply drop_app_length.
  - intros buffer. unfold events_of, V1.pdf.
    rewrite let_try_finally_eval by (intros; apply closePage_v1_ok).
    destruct (V1.createPage E url (print_by_default o) w) as [[q|e] w3] eqn:Hc;
      [|discriminate].
    destruct (createPage_v1_ok E url _ w q w3 Hc) as (-> & pre & Ht & Hpre).
    fold p. cbn [fst snd]. unfold pdfBytes at 1 2. unfold bind, ret.
    pose proof (pageCall_ok E p (Pdf pdfOptions) w3) as Hok.
    destruct (pageCall E p (Pdf pdfOptions) w3) as [[[]|e] w4]; [|discriminate].
    intros [= <-]. specialize (Hok eq_refl). simpl in Hok.
    destruct (closePage_v1_tail E p w4) as (tail & Htail).
    exists pre, tail. split; [|split; [exact Hpre|by rewrite Ht]].
    cbn [snd]. rewrite Htail, Hok, Ht, <- !app_assoc. apply drop_app_length.
Qed.

(** X17: the value of a [screenshot] call carries the format the caller
    asked for, and its buffer is what the engine answered to the capture, at
    the point of the trace where the capture was made. *)
Theorem screenshot_returns_type_and_capture (E : Engine) (url : string)
    (o : PageOptions) (v : PageViewportOptions) (s : ScreenshotOptions)
    (w : World) (shot : Shot) :
  (V1.screenshot E url o v s w).1 = Ok shot ->
  let p := next_page w in
  shot_type shot = type s /\
  exists pre post,
    events_of (V1.screenshot E url o v s) w =
      pre ++ Ev (PageCall p (Screenshot (capture_options s))) true :: post /\
    shot_buffer shot = screenshot_of E (trace w ++ pre) p (capture_options s).
Proof.
  intros Hok p. revert Hok. unfold events_of, V1.screenshot.
  rewrite let_try_finally_eval by (intros; apply closePage_v1_ok).
  destruct (V1.createPage E url o w) as [[q|e] w3] eqn:Hc; [|discriminate].
  destruct (createPage_v1_ok E url o w q w3 Hc) as (-> & pre & Ht & _).
  fold p. cbn [fst snd]. unfold V1.capture, bind.
  pose proof (pageCall_ok E p (SetViewport v) w3) as H1.
  destruct (pageCall E p (SetViewport v) w3) as [[[]|e] w4]; [|discriminate].
  specialize (H1 eq_refl). simpl in H1.
  assert (exists mid w5,
            when (0 <? animationTimeout s)%Z
              (pageCall E p (WaitForAnimations s (animationTimeout s))) w4 = (mid, w5) /\
            (mid = Ok tt -> exists evs, trace w5 = trace w4 ++ evs)) as (mid & w5 & -> & H2).
  { unfold when. destruct (0 <? animationTimeout s)%Z.
    - pose proof (pageCall_ok E p (WaitForAnimations s (animationTimeout s)) w4) as H.
      destruct (pageCall E p _ w4) as [r w5]. exists r, w5. split; [done|].
      intros ->. eauto.
    - exists (Ok tt), w4. split; [done|]. intros _. exists []. by rewrite app_nil_r. }
  destruct mid as [[]|e]; [|discriminate].
  destruct (H2 eq_refl) as (evs & H2').
  unfold screenshotBytes, bind, ret.
  pose proof (pageCall_ok E p (Screenshot (capture_options s)) w5) as H3.
  destruct (pageCall E p (Screenshot (capture_options s)) w5) as [[[]|e] w6];
    [|discriminate].
  specialize (H3 eq_refl). simpl in H3.
  intros [= <-]. split; [reflexivity|].
  destruct (closePage_v1_tail E p w6) as (tail & Htail).
  exists (pre ++ Ev (PageCall p (SetViewport v)) true :: evs), tail.
  cbn [snd shot_buffer]. split.
  - rewrite Htail, H3, H2', H1, Ht, <- !app_assoc. simpl.
    rewrite drop_app_length. reflexivity.
  - rewrite H2', H1, Ht, <- !app_assoc. reflexivity.
Qed.

(** The theorem at a capture in the lossless format. *)
Lemma screenshot_returns_witness :
  shot_type {| shot_type := "png"; shot_buffer := [x89; x50; x4e; x47] |} = "png".
Proof.
  exact (proj1 (screenshot_returns_type_and_capture obliging "https://example.com" plain
                  {| width := 800; height := 600 |}
                  {| animationTimeout := 0; type := "png"; quality := Some 80%Z;
                     shot_rest := [] |}
                  idle {| shot_type := "png"; shot_buffer := [x89; x50; x4e; x47] |}
                  eq_refl)).
Defined.

(** ** The second navigation of the second revision *)

Lemma closePage_v2_tail E page w :
  exists tail, trace (V2.closePage E page w).2 = trace w ++ tail.
Proof.
  unfold V2.closePage, bind, page_isClosed, when, try_catch, console_log, ret.
  destruct page as [p|]; [|exists []; by rewrite app_nil_r].
  destruct (negb (isClosed p w)); [|exists []; by rewrite app_nil_r].
  pose proof (pageCall_trace E p Close w) as H.
  destruct (pageCall E p Close w) as [[[]|e] w1]; simpl in *; rewrite H; eauto.
Qed.

Lemma config_calls_end E url o p :
  exists first, calls_of p (config_script E url o) =
    first ++ [PageCall p (SetCacheEnabled false); PageCall p (Goto url (rest_options o))].
Proof.
  unfold config_script, calls_of. rewrite !omap_app, !app_assoc. simpl. eauto.
Qed.

Lemma createPage_v2_ok E url o w p w3 :
  V2.createPage E url o w = (Ok p, w3) ->
  p = next_page w /\
  exists pre, trace w3 = trace w ++ pre ++ [Ev (PageCall p (Goto url (rest_options o))) true].
Proof.
  rewrite createPage_v2_plays. unfold bind at 1. rewrite newPage_eval.
  destruct (failure _); [discriminate|].
  unfold bind, pageOn, ret. cbn beta iota.
  set (opening := [Ev NewPage true; Ev (PageCall (next_page w) (On "error")) true]).
  match goal with |- context [play E ?q ?sc ?w0] =>
    pose proof (play_trace E q sc w0) as Ht;
    pose proof (proj1 (play_result E q sc w0)) as Hr;
    assert (trace w0 = trace w ++ opening) as Ht0
      by (simpl; by rewrite <- app_assoc)
  end.
  rewrite Ht0 in Ht, Hr.
  destruct (play E _ _ _) as [[[]|e] w3']; [|discriminate].
  intros [= <- <-]. split; [reflexivity|].
  rewrite (played_complete _ _ _ _ (Hr eq_refl)) in Ht.
  destruct (config_calls_end E url o (next_page w)) as (first & Hfirst).
  rewrite Hfirst, fmap_app in Ht. simpl in Ht.
  exists (opening ++ map (fun c => Ev c true) first ++
          [Ev (PageCall (next_page w) (SetCacheEnabled false)) true]).
  rewrite Ht, <- !app_assoc. reflexivity.
Qed.

(** X18: [html] of the second revision navigates twice: a call that returns
    the content has called [page.goto] with the navigation options, as the
    last step of [createPage], then again with all the page options of the
    caller (credentials and headers included), and then [page.content()]. *)
Theorem html_v2_navigates_twice (E : Engine) (url : string) (o : PageOptions)
    (w : World) (html : string) :
  (V2.html E url o w).1 = Ok html ->
  let p := next_page w in
  exists pre post,
    events_of (V2.html E url o) w =
    pre ++
    [Ev (PageCall p (Goto url (rest_options o))) true;
     Ev (PageCall p (Goto url o)) true;
     Ev (PageCall p Content) true] ++ post.
Proof.
  intros Hok p. revert Hok. unfold events_of, V2.html, V2.withPage.
  rewrite let_try_finally_eval by (intros; apply closePage_v2_ok).
  destruct (V2.createPage E url o w) as [[q|e] w3] eqn:Hc; [|discriminate].
  destruct (createPage_v2_ok E url o w q w3 Hc) as (-> & pre & Ht).
  fold p in Ht |- *. cbn [fst snd]. unfold bind.
  pose proof (pageCall_ok E p (Goto url o) w3) as H1.
  destruct (pageCall E p (Goto url o) w3) as [[[]|e] w4]; [|discriminate].
  specialize (H1 eq_refl). simpl in H1.
  unfold content, bind, ret.
  pose proof (pageCall_ok E p Content w4) as H2.
  destruct (pageCall E p Content w4) as [[[]|e] w5]; [|discriminate].
  specialize (H2 eq_refl). simpl in H2. intros _.
  destruct (closePage_v2_tail E (Some p) w5) as (tail & Htail).
  exists pre, tail. cbn [snd].
  rewrite Htail, H2, H1, Ht, <- !app_assoc. simpl. apply drop_app_length.
Qed.

(** The theorem at a call with credentials. *)
Lemma html_v2_navigates_twice_witness :
  exists pre post,
    events_of (V2.html obliging "https://example.com"
                 {| timeout := None; waitUntil := None;
                    credentials := Some {| username := "u"; password := "p" |};
                    emulateMediaType := None; headers := None |}) idle =
    pre ++
    [Ev (PageCall 0 (Goto "https://example.com"
                       {| timeout := None; waitUntil := None; credentials := None;
                          emulateMediaType := None; headers := None |})) true;
     Ev (PageCall 0 (Goto "https://example.com"
                       {| timeout := None; waitUntil := None;
                          credentials := Some {| username := "u"; password := "p" |};
                          emulateMediaType := None; headers := None |})) true;
     Ev (PageCall 0 Content) true] ++ post.
Proof.
  exact (html_v2_navigates_twice obliging "https://example.com"
           {| timeout := None; waitUntil := None;
              credentials := Some {| username := "u"; password := "p" |};
              emulateMediaType := None; headers := None |} idle
           "<!DOCTYPE html><html><body>hello</body></html>" eq_refl).
Defined.

(** ** The second revision closes the page that [createPage] returned *)

Lemma closePage_v2_closes E p w :
  close_accepted E -> p < length (pages w) ->
  pages (V2.closePage E (Some p) w).2 = mark_closed p (pages w).
Proof.
  intros Hacc Hp. unfold V2.closePage, try_catch, bind, page_isClosed, when, ret.
  destruct (isClosed p w) eqn:Hc; simpl.
  - symmetry. by apply isClosed_mark_closed.
  - unfold pageCall, outcome, closes. rewrite Hacc. simpl.
    by rewrite orb_true_r.
Qed.

Lemma createPage_v2_pages E url o w p w3 :
  V2.createPage E url o w = (Ok p, w3) ->
  p = length (pages w) /\ exists s, pages w3 = pages w ++ [s].
Proof.
  rewrite createPage_v2_plays. unfold bind at 1. rewrite newPage_eval.
  destruct (failure _); [discriminate|].
  unfold bind, pageOn, ret. cbn beta iota.
  match goal with |- context [play E ?q ?sc ?w0] =>
    pose proof (play_pages E q sc w0) as Hp
  end.
  destruct (play E _ _ _) as [[[]|e] w3']; [|discriminate].
  intros [= <- <-]. split; [reflexivity|].
  simpl in Hp. destruct Hp as [-> | ->]; [eauto|].
  unfold next_page. rewrite mark_closed_last. eauto.
Qed.

Lemma withPage_closes {A} E url o (fn : Page -> M A) script w :
  (forall p w, void (fn p) w = play E p script w) ->
  close_accepted E ->
  (exists p, (V2.createPage E url o w).1 = Ok p) ->
  pages (V2.withPage E fn url o w).2 = pages w ++ [PageClosed].
Proof.
  intros Hfn Hacc [p Hc]. unfold V2.withPage.
  rewrite let_try_finally_eval by (intros; apply closePage_v2_ok).
  destruct (V2.createPage E url o w) as [r w3] eqn:Hcreate. simpl in Hc. subst r.
  destruct (createPage_v2_pages E url o w p w3 Hcreate) as (-> & s0 & Hw3).
  cbn [snd].
  pose proof (Hfn (length (pages w)) w3) as Hb. rewrite void_eq in Hb.
  apply (f_equal snd) in Hb. simpl in Hb. rewrite Hb.
  destruct (play_pages E (length (pages w)) script w3) as [H|H].
  - rewrite closePage_v2_closes; [|done|rewrite H, Hw3, length_app; simpl; lia].
    rewrite H, Hw3. apply mark_closed_last.
  - rewrite closePage_v2_closes;
      [|done|rewrite H; unfold mark_closed; rewrite length_insert, Hw3, length_app;
             simpl; lia].
    rewrite H, mark_closed_twice, Hw3. apply mark_closed_last.
Qed.

Lemma html_v2_plays E url o p w :
  void (pageCall E p (Goto url o) ;; content E p) w =
  play E p [Do (Goto url o); Do Content] w.
Proof. unfold void, content; cbn [play]. run_calls. Qed.

Lemma screenshot_v2_plays E v s p w :
  void (pageCall E p (SetViewport v) ;;
        when (0 <? animationTimeout s)%Z
          (pageCall E p (WaitForAnimations s (animationTimeout s))) ;;
        screenshotBytes E p (capture_options s)) w =
  play E p (capture_script v s) w.
Proof.
  unfold void, capture_script, screenshotBytes, when.
  destruct (0 <? animationTimeout s)%Z; cbn [app play]; run_calls.
Qed.

(** X19: in the second revision, once [createPage] has returned a page, the
    page is closed when the render call returns, however the rest of the
    call ends, provided the engine does not reject the close. *)
Theorem withPage_closes_created_page (E : Engine) (url : string)
    (o : PageOptions) (pdfOptions : PdfOptions) (v : PageViewportOptions)
    (s : ScreenshotOptions) (w : World) :
  close_accepted E ->
  let created options := exists p, (V2.createPage E url options w).1 = Ok p in
  (created o -> pages (V2.html E url o w).2 = pages w ++ [PageClosed]) /\
  (created (print_by_default o) ->
   pages (V2.pdf E url o pdfOptions w).2 = pages w ++ [PageClosed]) /\
  (created o -> pages (V2.screenshot E url o v s w).2 = pages w ++ [PageClosed]).
Proof.
  intros Hacc created. repeat split; intros Hc.
  - by apply (withPage_closes E url o _ _ w (html_v2_plays E url o)).
  - by apply (withPage_closes E url (print_by_default o) _ _ w
                (fun p => pdfBytes_plays E p pdfOptions)).
  - by apply (withPage_closes E url o _ _ w (screenshot_v2_plays E v s)).
Qed.

(** The theorem at the engine that accepts every call. *)
Lemma withPage_closes_witness :
  pages (V2.html obliging "https://example.com" plain idle).2 = [PageClosed].
Proof.
  assert (close_accepted obliging) as Hacc by (intros t p; reflexivity).
  refine (proj1 (withPage_closes_created_page obliging "https://example.com" plain []
                   {| width := 800; height := 600 |}
                   {| animationTimeout := 0; type := "png"; quality := None;
                      shot_rest := [] |} idle Hacc) _).
  exists 0. reflexivity.
Defined.

(** ** What [create] leaves alone in the heap *)

(** X20: [create] of the first revision, called with an options object that
    has an [args] array, changes that array and nothing else in the heap:
    every object and every other array is as it was. *)
Theorem create_touches_args_array_only (E : Engine) (options : loc)
    (o : LaunchOptions) (a : loc) (old : list string) (w : World) :
  objects (heap w) !! options = Some o -> args o = Some a ->
  arrays (heap w) !! a = Some old ->
  let w' := (V1.create E (Some options) w).2 in
  objects (heap w') = objects (heap w) /\
  forall l, l <> a -> arrays (heap w') !! l = arrays (heap w) !! l.
Proof.
  intros Ho Hargs Hold w'.
  assert (args_of w options = Some old) as Ha.
  { unfold args_of. by rewrite Ho, Hargs. }
  destruct (create_v1_launches E options old w Ha) as ((_ & _ & _ & Hf) & _).
  fold w' in Hf. rewrite Ho, Hargs in Hf.
  destruct Hf as (old' & _ & Hh). simpl in Hh. rewrite Hh. simpl.
  split; [reflexivity|]. intros l Hl. by rewrite lookup_insert_ne.
Qed.

(** The theorem for a caller that passes one argument of its own. *)
Lemma create_touches_witness :
  objects (heap (V1.create obliging (Some 0) with_caller_options).2) =
  objects (heap with_caller_options).
Proof.
  exact (proj1 (create_touches_args_array_only obliging 0
                  {| args := Some 0; headless := None |} 0 ["--window-size=800,600"]
                  with_caller_options eq_refl eq_refl eq_refl)).
Defined.

(** ** A render call of the first revision carries out its script *)

Section FirstRevisionCarriesOut.

Context {A : Type} (E : Engine) (url : string) (o : PageOptions).
Context (body : Page -> M A) (script : list step).
Hypothesis body_plays : forall p w, void (body p) w = play E p script w.

Lemma call_carries_out w :
  carries_out E (config_script E url o ++ script) w
    (let_try_finally (V1.createPage E url o) body (V1.closePage E)).
Proof.
  set (call := let_try_finally (V1.createPage E url o) body (V1.closePage E)).
  set (full := config_script E url o ++ script).
  pose proof (call_events E url o body script body_plays w) as Hs.
  fold call full in Hs.
  assert (forall e, page_opens E w ->
            e ∈ played E (next_page w) full (trace w ++ opening w) ->
            e ∈ events_of call w) as Hincl.
  { intros e Hopen He. eapply course_played_included; [exact Hs|exact Hopen|exact He]. }
  unfold carries_out. split; [exact Hs|]. split; [|split; [|split]].
  - apply (call_succeeds_iff E url o body script w body_plays).
  - intros before op after Heq Hopen Hacc. unfold accepted in Hacc.
    eexists. apply Hincl; [exact Hopen|].
    rewrite Heq, played_app, Hacc. apply elem_of_app. right. simpl. by left.
  - intros before after Heq Hopen Hacc c Hc. unfold accepted in Hacc.
    apply Hincl; [exact Hopen|].
    rewrite Heq, played_app, Hacc, (played_complete _ _ _ _ Hacc).
    apply elem_of_app. left. apply list_elem_of_fmap. eauto.
  - intros Hopen Hacc. unfold page_opens, accepted in *.
    unfold course_events in Hs. rewrite Hopen in Hs.
    destruct Hs as (closing & Hev & Hcl). exists closing. split; [|exact Hcl].
    rewrite Hev. fold (opening w). by rewrite (played_complete _ _ _ _ Hacc).
Qed.

End FirstRevisionCarriesOut.

Lemma html_carries_out E url o w :
  carries_out E (config_script E url o ++ [Do Content]) w (V1.html E url o).
Proof. apply (call_carries_out E url o (content E) _ (content_plays E)). Qed.

Lemma pdf_carries_out E url o pdfOptions w :
  carries_out E (config_script E url (print_by_default o) ++ [Do (Pdf pdfOptions)]) w
    (V1.pdf E url o pdfOptions).
Proof.
  apply (call_carries_out E url (print_by_default o) (fun p => pdfBytes E p pdfOptions) _
           (fun p => pdfBytes_plays E p pdfOptions)).
Qed.

Lemma screenshot_carries_out E url o v s w :
  carries_out E (config_script E url o ++ capture_script v s) w
    (V1.screenshot E url o v s).
Proof.
  apply (call_carries_out E url o (fun p => V1.capture E p v s) _
           (fun p => capture_plays E p v s)).
Qed.

(** C5: every render call of the first revision carries out, on the page it
    opens, the script that consists of the configuration steps in the fixed
    order (headers, media type and credentials as far as supplied, cache
    switch, navigation) followed by the extraction: each step is called as
    soon as the steps before it have returned normally, the call returns a
    value exactly when all were accepted, and then the events are these
    calls in this order.  Whatever the engine answers, the calls come in the
    order of the stages, each at most once, no configuration call is made
    beyond those the options ask for, and an extraction call is made only
    when the whole configuration has returned normally.  For [pdf] the
    options are the caller's with the media type defaulted. *)
Theorem configuration_precedes_extraction (E : Engine) (url : string)
    (o : PageOptions) (pdfOptions : PdfOptions) (v : PageViewportOptions)
    (s : ScreenshotOptions) (w : World) :
  (carries_out E (config_script E url o ++ [Do Content]) w (V1.html E url o) /\
   configured_in_order E url o w (events_of (V1.html E url o) w)) /\
  (carries_out E (config_script E url (print_by_default o) ++ [Do (Pdf pdfOptions)]) w
     (V1.pdf E url o pdfOptions) /\
   configured_in_order E url (print_by_default o) w
     (events_of (V1.pdf E url o pdfOptions) w)) /\
  (carries_out E (config_script E url o ++ capture_script v s) w
     (V1.screenshot E url o v s) /\
   configured_in_order E url o w (events_of (V1.screenshot E url o v s) w)).
Proof.
  destruct (calls_configured_in_order E url o pdfOptions v s w) as (H1 & H2 & H3).
  split; [|split]; (split; [|assumption]).
  - apply html_carries_out.
  - apply pdf_carries_out.
  - apply screenshot_carries_out.
Qed.

(** The theorem at a call with headers and credentials on an engine that
    accepts every call: the events of [html], in full. *)
Lemma configuration_precedes_extraction_witness :
  exists closing,
    events_of (V1.html obliging "https://example.com"
                 {| timeout := None; waitUntil := None;
                    credentials := Some {| username := "u"; password := "p" |};
                    emulateMediaType := Some screen; headers := Some "{}" |}) idle =
    [Ev NewPage true; Ev (PageCall 0 (On "error")) true] ++
    [Ev (PageCall 0 (SetExtraHTTPHeaders (JObject []))) true;
     Ev (PageCall 0 (EmulateMediaType screen)) true;
     Ev (PageCall 0 (Authenticate {| username := "u"; password := "p" |})) true;
     Ev (PageCall 0 (SetCacheEnabled false)) true;
     Ev (PageCall 0 (Goto "https://example.com"
                       {| timeout := None; waitUntil := None; credentials := None;
                          emulateMediaType := None; headers := None |})) true;
     Ev (PageCall 0 Content) true] ++ closing.
Proof.
  destruct (proj2 (proj2 (proj2 (proj2 (proj1 (proj1
             (configuration_precedes_extraction obliging "https://example.com"
                {| timeout := None; waitUntil := None;
                   credentials := Some {| username := "u"; password := "p" |};
                   emulateMediaType := Some screen; headers := Some "{}" |}
                [] {| width := 800; height := 600 |}
                {| animationTimeout := 0; type := "png"; quality := None;
                   shot_rest := [] |} idle)))))) eq_refl eq_refl)
    as (closing & H & _).
  exists closing. exact H.
Defined.

Lemma pdf_script_split E url o pdfOptions :
  exists after,
    config_script E url (print_by_default o) ++ [Do (Pdf pdfOptions)] =
    headers_steps E o ++
    Do (EmulateMediaType (default print (emulateMediaType o))) :: after.
Proof.
  unfold config_script, media_steps. simpl emulateMediaType.
  change (headers_steps E (print_by_default o)) with (headers_steps E o).
  rewrite <- !app_assoc. simpl. eauto.
Qed.

(** C3: every [pdf] call applies to its page the caller's media type, or
    [print] when the caller set none: [page.emulateMediaType] is called with
    that value as soon as the page is open and the headers, if any, are set,
    and has returned normally when the engine accepts it; the call carries
    out the configuration of the options with the media type defaulted and
    then [page.pdf].  No other media type is ever applied, and the media
    type has been applied whenever the PDF is asked of the engine and
    whenever the call returns a buffer. *)
Theorem pdf_media_type (E : Engine) (url : string) (o : PageOptions)
    (pdfOptions : PdfOptions) (w : World) :
  let p := next_page w in
  let evs := events_of (V1.pdf E url o pdfOptions) w in
  let effective :=
    match emulateMediaType o with
    | None => print
    | Some m => m
    end in
  carries_out E (config_script E url (print_by_default o) ++ [Do (Pdf pdfOptions)]) w
    (V1.pdf E url o pdfOptions) /\
  (page_opens E w -> accepted E w (headers_steps E o) ->
   exists ok, Ev (PageCall p (EmulateMediaType effective)) ok ∈ evs) /\
  (page_opens E w ->
   accepted E w (headers_steps E o ++ [Do (EmulateMediaType effective)]) ->
   Ev (PageCall p (EmulateMediaType effective)) true ∈ evs) /\
  emulateMediaType (print_by_default o) = Some effective /\
  (forall q m ok, Ev (PageCall q (EmulateMediaType m)) ok ∈ evs -> m = effective) /\
  (forall q options ok, Ev (PageCall q (Pdf options)) ok ∈ evs ->
     Ev (PageCall p (EmulateMediaType effective)) true ∈ evs) /\
  ((exists buffer, (V1.pdf E url o pdfOptions w).1 = Ok buffer) ->
     Ev (PageCall p (EmulateMediaType effective)) true ∈ evs).
Proof.
  intros p evs effective.
  pose proof (pdf_carries_out E url o pdfOptions w) as Hc.
  destruct (pdf_script_split E url o pdfOptions) as (after & Hsplit).
  change (default print (emulateMediaType o)) with effective in Hsplit.
  split; [exact Hc|]. split; [|split].
  - intros Hopen Hacc.
    exact (proj1 (proj2 (proj2 Hc)) _ _ _ Hsplit Hopen Hacc).
  - intros Hopen Hacc.
    apply (proj1 (proj2 (proj2 (proj2 Hc)))
             (headers_steps E o ++ [Do (EmulateMediaType effective)]) after).
    + rewrite Hsplit, <- app_assoc. reflexivity.
    + exact Hopen.
    + exact Hacc.
    + unfold calls_of. rewrite omap_app, elem_of_app. right. simpl. by left.
  - exact (pdf_media_events E url o pdfOptions w).
Qed.

(** The theorem at a call that leaves the media type unset, on an engine
    that accepts every call: [print] has been applied. *)
Lemma pdf_media_type_witness :
  Ev (PageCall 0 (EmulateMediaType print)) true ∈
  events_of (V1.pdf obliging "https://example.com" plain []) idle.
Proof.
  exact (proj1 (proj2 (proj2 (pdf_media_type obliging "https://example.com" plain []
                                idle))) eq_refl eq_refl).
Defined.

Lemma capture_script_split v s :
  capture_script v s =
  viewport_script v s ++ [Do (Screenshot (capture_options s))].
Proof. reflexivity. Qed.

(** C6: every [screenshot] call sets the viewport as soon as the page is
    configured; once the viewport call has returned, it calls the settler
    when [animationTimeout] is positive and the capture when it is not, and
    with a positive timeout it calls the capture once the settler has
    returned.  The settler is called under no other condition (and then on
    the page of the call, with the caller's options and timeout), and every
    capture comes right after the viewport call has returned normally
    (timeout not positive) or right after the settler has returned normally
    (timeout positive). *)
Theorem settler_iff_positive_timeout (E : Engine) (url : string) (o : PageOptions)
    (v : PageViewportOptions) (s : ScreenshotOptions) (w : World) :
  let p := next_page w in
  let evs := events_of (V1.screenshot E url o v s) w in
  let t := animationTimeout s in
  let configuration := config_script E url o in
  let viewport_set := Ev (PageCall p (SetViewport v)) true in
  let settled := Ev (PageCall p (WaitForAnimations s t)) true in
  carries_out E (configuration ++ capture_script v s) w (V1.screenshot E url o v s) /\
  (page_opens E w -> accepted E w configuration ->
   exists ok, Ev (PageCall p (SetViewport v)) ok ∈ evs) /\
  (page_opens E w -> accepted E w (configuration ++ [Do (SetViewport v)]) ->
   ((0 < t)%Z -> exists ok, Ev (PageCall p (WaitForAnimations s t)) ok ∈ evs) /\
   ((t <= 0)%Z -> exists ok, Ev (PageCall p (Screenshot (capture_options s))) ok ∈ evs)) /\
  (page_opens E w -> (0 < t)%Z ->
   accepted E w (configuration ++ [Do (SetViewport v); Do (WaitForAnimations s t)]) ->
   exists ok, Ev (PageCall p (Screenshot (capture_options s))) ok ∈ evs) /\
  (forall q s' t' ok, Ev (PageCall q (WaitForAnimations s' t')) ok ∈ evs ->
     (0 < t)%Z /\ q = p /\ s' = s /\ t' = t) /\
  ((0 < t)%Z -> viewport_set ∈ evs ->
     exists ok, Ev (PageCall p (WaitForAnimations s t)) ok ∈ evs) /\
  ((t <= 0)%Z -> forall q c ok, Ev (PageCall q (Screenshot c)) ok ∈ evs ->
     just_before viewport_set (Ev (PageCall q (Screenshot c)) ok) evs) /\
  ((0 < t)%Z -> forall q c ok, Ev (PageCall q (Screenshot c)) ok ∈ evs ->
     just_before settled (Ev (PageCall q (Screenshot c)) ok) evs).
Proof.
  intros p evs t configuration viewport_set settled.
  pose proof (screenshot_carries_out E url o v s w) as Hc.
  pose proof (proj1 (proj2 (proj2 Hc))) as Hstep.
  split; [exact Hc|]. split; [|split; [|split]].
  - intros Hopen Hacc. by apply (Hstep configuration (SetViewport v) _ eq_refl).
  - intros Hopen Hacc. split; intros Ht.
    + apply (Hstep (configuration ++ [Do (SetViewport v)])
               (WaitForAnimations s t) [Do (Screenshot (capture_options s))]);
        [|done|done].
      unfold capture_script. apply Z.ltb_lt in Ht. fold t. rewrite Ht.
      by rewrite <- app_assoc.
    + apply (Hstep (configuration ++ [Do (SetViewport v)])
               (Screenshot (capture_options s)) []); [|done|done].
      unfold capture_script. apply Z.ltb_ge in Ht. fold t. rewrite Ht.
      by rewrite <- app_assoc.
  - intros Hopen Ht Hacc.
    apply (Hstep (configuration ++ [Do (SetViewport v); Do (WaitForAnimations s t)])
             (Screenshot (capture_options s)) []); [|done|done].
    unfold capture_script. apply Z.ltb_lt in Ht. fold t. rewrite Ht.
    by rewrite <- app_assoc.
  - exact (settler_events E url o v s w).
Qed.

(** The theorem at a call with a timeout of 500 ms, on an engine that
    accepts every call: the settler is called. *)
Lemma settler_iff_positive_timeout_witness :
  exists ok,
    Ev (PageCall 0 (WaitForAnimations
                      {| animationTimeout := 500; type := "png"; quality := None;
                         shot_rest := [] |} 500)) ok ∈
    events_of (V1.screenshot obliging "https://example.com" plain
                 {| width := 800; height := 600 |}
                 {| animationTimeout := 500; type := "png"; quality := None;
                    shot_rest := [] |}) idle.
Proof.
  refine (proj1 (proj1 (proj2 (proj2 (settler_iff_positive_timeout obliging
                                        "https://example.com" plain
                                        {| width := 800; height := 600 |}
                                        {| animationTimeout := 500; type := "png";
                                           quality := None; shot_rest := [] |} idle)))
                   eq_refl eq_refl) _).
  reflexivity.
Defined.

(** C7: every [screenshot] call asks the engine for the capture as soon as
    the page is configured and the viewport set (and the settler returned,
    when it runs), with options that carry the caller's format, no quality
    when the format is the lossless one ([png]) and the caller's quality
    when the format is lossy.  Every capture the engine receives has these
    options, and a call that returns an image has made such a capture. *)
Theorem quality_only_for_lossy (E : Engine) (url : string) (o : PageOptions)
    (v : PageViewportOptions) (s : ScreenshotOptions) (w : World) :
  let evs := events_of (V1.screenshot E url o v s) w in
  carries_out E (config_script E url o ++ capture_script v s) w
    (V1.screenshot E url o v s) /\
  (page_opens E w -> accepted E w (config_script E url o ++ viewport_script v s) ->
   exists ok,
     Ev (PageCall (next_page w)
           (Screenshot {| cap_type := type s;
                          cap_quality := if lossless (type s) then None else quality s;
                          cap_rest := shot_rest s |})) ok ∈ evs) /\
  (forall q c ok, Ev (PageCall q (Screenshot c)) ok ∈ evs ->
     c = capture_options s /\
     cap_type c = type s /\
     (lossless (type s) = true -> cap_quality c = None) /\
     (lossless (type s) = false -> cap_quality c = quality s)) /\
  ((exists shot, (V1.screenshot E url o v s w).1 = Ok shot) ->
     Ev (PageCall (next_page w) (Screenshot (capture_options s))) true ∈ evs).
Proof.
  intros evs.
  pose proof (screenshot_carries_out E url o v s w) as Hc.
  split; [exact Hc|]. split.
  - intros Hopen Hacc.
    apply (proj1 (proj2 (proj2 Hc)) (config_script E url o ++ viewport_script v s)
             (Screenshot (capture_options s)) []); [|done|done].
    by rewrite capture_script_split, <- app_assoc.
  - exact (capture_events E url o v s w).
Qed.

(** The theorem at a call for a lossy format with quality 80, on an engine
    that accepts every call: the capture carries the quality. *)
Lemma quality_only_for_lossy_witness :
  exists ok,
    Ev (PageCall 0 (Screenshot {| cap_type := "jpeg"; cap_quality := Some 80%Z;
                                  cap_rest := [] |})) ok ∈
    events_of (V1.screenshot obliging "https://example.com" plain
                 {| width := 800; height := 600 |}
                 {| animationTimeout := 0; type := "jpeg"; quality := Some 80%Z;
                    shot_rest := [] |}) idle.
Proof.
  exact (proj1 (proj2 (quality_only_for_lossy obliging "https://example.com" plain
                         {| width := 800; height := 600 |}
                         {| animationTimeout := 0; type := "jpeg"; quality := Some 80%Z;
                            shot_rest := [] |} idle)) eq_refl eq_refl).
Defined.

(** ** From launch to shutdown *)

Lemma scan_prefix_found before after dir :
  Forall (fun arg => String.prefix "--user-data-dir=" arg = false) before ->
  scan_user_data_dir (before ++ ("--user-data-dir=" +:+ dir) :: after) = Some dir.
Proof.
  induction 1 as [|arg before Harg _ IH]; cbn [app scan_user_data_dir].
  - rewrite string_prefix_app. f_equal. apply replace_first_prefix.
  - rewrite Harg. exact IH.
Qed.

Lemma close_v1_removes E dir w :
  (forall t c, c = BrowserClose \/ c = RemoveSync dir -> failure (respond E t c) = None) ->
  let r := {| V1.browser := TheBrowser; V1.chromeTmpDataDir := Some dir |} in
  (V1.close E r w).1 = Ok tt /\
  browserRunning (V1.close E r w).2 = false /\
  existsSync (V1.close E r w).2 dir = false.
Proof.
  intros Hacc r. unfold V1.close, bind, browserClose, removeSync, when, ret.
  rewrite !engineCall_eval, !(Hacc _ BrowserClose) by auto. cbn [V1.chromeTmpDataDir r].
  destruct (truthy dir) eqn:Ht.
  - rewrite !engineCall_eval, !(Hacc _ (RemoveSync dir)) by auto.
    repeat split. unfold existsSync. simpl.
    rewrite bool_decide_eq_false_2; [by rewrite andb_false_r|]. apply remove_tree_gone.
  - repeat split. unfold existsSync. unfold truthy in Ht. by rewrite Ht.
Qed.

(** X21: when the browser was spawned with a [--user-data-dir=] argument and
    the engine accepts the launch, [browser.close()] and [fs.removeSync],
    creating the renderer and then closing it ends normally with the browser
    closed and that directory gone. *)
Theorem create_then_close_removes_directory (E : Engine) (options : loc)
    (old before after : list string) (dir : string) (w : World) :
  args_of w options = Some old ->
  (forall t c, (exists xs mode, c = Launch xs mode) \/ c = BrowserClose \/
               c = RemoveSync dir -> failure (respond E t c) = None) ->
  (forall t, spawnargs E t = Some (before ++ ("--user-data-dir=" +:+ dir) :: after)) ->
  Forall (fun arg => String.prefix "--user-data-dir=" arg = false) before ->
  let session := r <- V1.create E (Some options) ;; V1.close E r in
  (session w).1 = Ok tt /\
  browserRunning (session w).2 = false /\
  existsSync (session w).2 dir = false.
Proof.
  intros Ha Hacc Hspawn Hbefore session. unfold session.
  destruct (create_v1_eval_heap E options old w Ha) as (h1 & Ha1 & Hc).
  assert (exists w1, V1.create E (Some options) w =
                     (Ok {| V1.browser := TheBrowser; V1.chromeTmpDataDir := Some dir |}, w1))
    as (w1 & Hcreate).
  { rewrite Hc. unfold bind at 1.
    rewrite (launch_eval E options "new" _ _ Ha1), engineCall_eval.
    rewrite (Hacc _ (Launch _ _)) by eauto.
    unfold bind, chromeSpawnArgs, console_log, ret. cbn beta iota.
    rewrite Hspawn. simpl default. rewrite (scan_prefix_found _ _ _ Hbefore). eauto. }
  unfold bind. rewrite Hcreate.
  apply close_v1_removes. intros t c [-> | ->]; apply Hacc; auto.
Qed.

(** The theorem at the engine that accepts every call, whose browser was
    spawned with a profile directory. *)
Lemma create_then_close_witness :
  existsSync
    ((r <- V1.create obliging (Some 0) ;; V1.close obliging r)
       (set_heap (fun _ => heap with_caller_options) idle)).2
    "/tmp/puppeteer_dev_chrome_profile-Ab12" = false.
Proof.
  refine (proj2 (proj2 (create_then_close_removes_directory obliging 0
                          ["--window-size=800,600"]
                          ["/usr/bin/chromium"; "--headless=new"] ["about:blank"]
                          "/tmp/puppeteer_dev_chrome_profile-Ab12"
                          (set_heap (fun _ => heap with_caller_options) idle)
                          eq_refl _ _ _))).
  - intros t c _. reflexivity.
  - intros t. reflexivity.
  - repeat constructor.
Defined.

(** X22: [close] of the second revision makes one call, [browser.close()],
    and nothing else: it returns normally exactly when the engine accepts
    that call, and the browser is then closed; when the engine rejects it,
    the error is the engine's and the browser is as it was.  Either way the
    files and the pages are left alone. *)
Theorem close_v2_only_closes_browser (E : Engine) (r : V2.Renderer) (w : World) :
  let out := V2.close E r w in
  let answer := failure (respond E (trace w) BrowserClose) in
  events_of (V2.close E r) w = [Ev BrowserClose (bool_decide (answer = None))] /\
  (out.1 = Ok tt <-> answer = None) /\
  (answer = None -> browserRunning out.2 = false) /\
  (forall msg, answer = Some msg ->
     out.1 = Err (EngineError msg) /\ browserRunning out.2 = browserRunning w) /\
  files out.2 = files w /\
  pages out.2 = pages w.
Proof.
  intros out answer. unfold out, events_of, V2.close, browserClose.
  rewrite engineCall_eval. fold answer.
  destruct answer as [msg|]; simpl; rewrite drop_app_length.
  - split; [done|]. split; [split; discriminate|]. split; [discriminate|].
    split; [|done]. by intros ? [= <-].
  - split; [done|]. split; [done|]. split; [done|]. split; [|done]. discriminate.
Qed.
